(** * resty-fs: the archive engine of [src/index.js]

    A shallow embedding of the archive functions of the server
    ([getFiles], [tar], [zip], [untar], [unzip], [compressHandler],
    [decompressHandler]) over a model of the Node capabilities they call:
    [node:path] on POSIX, a tree-shaped file system for [node:fs/promises],
    and write streams whose completion nobody awaits. *)

From Stdlib Require Import String Ascii List Bool Arith NArith Lia.
Import ListNotations.

Set Warnings "-register-all".

Local Open Scope list_scope.
Local Open Scope string_scope.

(** ** Strings *)

Module Str.

Definition slash : ascii := "/"%char.

(** [s.split("/")]. *)
Fixpoint split_slash (s : string) : list string :=
  match s with
  | EmptyString => [EmptyString]
  | String c r =>
      if Ascii.eqb c slash then EmptyString :: split_slash r
      else match split_slash r with
           | x :: xs => String c x :: xs
           | [] => [String c EmptyString]
           end
  end.

(** [segs.join("/")]. *)
Fixpoint join_slash (segs : list string) : string :=
  match segs with
  | [] => EmptyString
  | [x] => x
  | x :: rest => x ++ String slash (join_slash rest)
  end.

Fixpoint has_slash (s : string) : bool :=
  match s with
  | EmptyString => false
  | String c r => Ascii.eqb c slash || has_slash r
  end.

Fixpoint drop (n : nat) (s : string) : string :=
  match n, s with
  | O, _ => s
  | S k, String _ r => drop k r
  | S _, EmptyString => EmptyString
  end.

(** [s.replace(pat, "")] with a string pattern: the first occurrence of
    [pat], wherever it is, is removed. *)
Fixpoint remove_first (pat s : string) : string :=
  if String.prefix pat s then drop (String.length pat) s
  else match s with
       | EmptyString => EmptyString
       | String c r => String c (remove_first pat r)
       end.

End Str.

(** ** [node:path], POSIX flavour *)

Module Path.
Import Str.

Definition isAbsolute (p : string) : bool :=
  match p with
  | String c _ => Ascii.eqb c slash
  | EmptyString => false
  end.

(** One segment of [normalizeString]: empty segments and [.] are skipped,
    [..] pops the last kept segment; above the root it is dropped, or kept
    when [above] (a relative path). The stack is the kept segments, last
    first. *)
Definition push_segment (above : bool) (stack : list string) (seg : string)
  : list string :=
  if (seg =? "") || (seg =? ".") then stack
  else if seg =? ".." then
    match stack with
    | last :: below =>
        if last =? ".." then (if above then seg :: stack else stack)
        else below
    | [] => if above then [seg] else []
    end
  else seg :: stack.

Definition normalizeString (above : bool) (segs : list string) : list string :=
  rev (fold_left (push_segment above) segs []).

(** The loop of [path.resolve]: arguments right to left, the working
    directory last, until an absolute one is met. *)
Fixpoint resolve_loop (args_rev : list string) (acc : string) : string * bool :=
  match args_rev with
  | [] => (acc, false)
  | p :: rest =>
      if p =? "" then resolve_loop rest acc
      else
        let acc' := p ++ String slash acc in
        if isAbsolute p then (acc', true) else resolve_loop rest acc'
  end.

(** The segments of [path.resolve(...args)] and whether it is absolute. *)
Definition resolve_segs (cwd : string) (args : list string) : list string * bool :=
  let '(raw, abs) := resolve_loop (rev (cwd :: args)) "" in
  (normalizeString (negb abs) (split_slash raw), abs).

Definition render (segs : list string) (abs : bool) : string :=
  if abs then String slash (join_slash segs)
  else match segs with
       | [] => "."
       | _ => join_slash segs
       end.

(** [path.resolve(...args)] in a process whose working directory is [cwd]. *)
Definition resolve (cwd : string) (args : list string) : string :=
  let '(segs, abs) := resolve_segs cwd args in render segs abs.

(** [path.dirname]: trailing slashes are ignored, then the path is cut at
    the last slash before a character that is not one; index 0 is never
    scanned. *)
Fixpoint skip_slashes (rev_tail : list ascii) : list ascii :=
  match rev_tail with
  | c :: r => if Ascii.eqb c slash then skip_slashes r else rev_tail
  | [] => []
  end.

Fixpoint cut_at_slash (rev_tail : list ascii) : option (list ascii) :=
  match rev_tail with
  | c :: r => if Ascii.eqb c slash then Some r else cut_at_slash r
  | [] => None
  end.

Definition dirname (p : string) : string :=
  match p with
  | EmptyString => "."
  | String c0 tail =>
      let hasRoot := Ascii.eqb c0 slash in
      match cut_at_slash (skip_slashes (rev (list_ascii_of_string tail))) with
      | None => if hasRoot then "/" else "."
      | Some [] => if hasRoot then "//" else String c0 EmptyString
      | Some before => String c0 (string_of_list_ascii (rev before))
      end
  end.

(** A segment that names something: not empty, not [.] nor [..]. *)
Definition is_plain (s : string) : bool :=
  negb ((s =? "") || (s =? ".") || (s =? "..")).

Definition clean (s : string) : Prop :=
  is_plain s = true /\ has_slash s = false.

Fixpoint is_prefix (a b : list string) : bool :=
  match a, b with
  | [], _ => true
  | x :: a', y :: b' => (x =? y) && is_prefix a' b'
  | _ :: _, [] => false
  end.

End Path.

(** ** Data model *)

Module Data.

(** A [Buffer]: its bytes, as 8-bit characters. *)
Definition bytes := string.

(** [header.type] of an archive entry; [untar] tells ["file"] from every
    other type, of which directories and symbolic links stand here. *)
Inductive entry_type := TFile | TDirectory | TSymlink.

(** The header object handed to [pack.entry] / [archive.entry] and read
    back from [entry.header]. *)
Record header := mkHeader {
  h_type : entry_type;
  h_name : string;
  h_mode : N;
  h_mtime : N;
  h_uid : N;
  h_gid : N
}.

(** What a file holds. The containers are symbolic: a tar stream is the
    sequence of entries appended to it, a zip stream likewise, and a gzip
    stream wraps what it deflated; [Raw] bytes are no container. *)
Inductive content :=
| Raw (b : bytes)
| TarData (entries : list (header * content))
| ZipData (entries : list (header * option content))
| GzipData (inner : content).

Definition empty : content := Raw "".

(** Mode bits, modification time (ms) and owner, as [fs.Stats] reports
    them and as [chmod], [utimes] and [chown] set them. *)
Record meta := mkMeta {
  mode : N;
  mtime : N;
  uid : N;
  gid : N
}.

(** The file system: a tree of directories and regular files. Left out:
    links, permission checks, and the time stamp of a directory changing
    when something is created in it. *)
Inductive node :=
| File (m : meta) (data : content)
| Dir (m : meta) (kids : list (string * node)).

Inductive kind := KFile | KDir.

(** [fs.Stats], the fields the archive functions read. *)
Record stats := mkStats {
  st_kind : kind;
  st_meta : meta
}.

Definition isFile (s : stats) : bool :=
  match st_kind s with KFile => true | KDir => false end.

Definition isDirectory (s : stats) : bool :=
  match st_kind s with KDir => true | KFile => false end.

Inductive errno := ENOENT | ENOTDIR | EEXIST | EISDIR | EINVALIDTAR.

Inductive result (A : Type) :=
| Ok (a : A)
| Err (e : errno).
Arguments Ok {A} a.
Arguments Err {A} e.

Definition bind {A B : Type} (r : result A) (k : A -> result B) : result B :=
  match r with
  | Ok a => k a
  | Err e => Err e
  end.

(** [Promise.all(xs.map(async x => f x))] over calls that read only: the
    results in order, or the first failure. *)
Fixpoint mapM {A B : Type} (f : A -> result B) (xs : list A) : result (list B) :=
  match xs with
  | [] => Ok []
  | x :: rest =>
      bind (f x) (fun y => bind (mapM f rest) (fun ys => Ok (y :: ys)))
  end.

(** The process: its working directory, the clock ([new Date()]) and the
    metadata a newly created file or directory gets. *)
Record proc := mkProc {
  cwd : string;
  now : N;
  fresh_file : meta;
  fresh_dir : meta
}.

End Data.

Notation "x <- c ;; k" := (Data.bind c (fun x => k))
  (at level 61, c at next level, right associativity).

(** ** The file system calls *)

Module Fs.
Import Data.

Fixpoint find_kid (name : string) (kids : list (string * node)) : option node :=
  match kids with
  | [] => None
  | (n, k) :: rest => if n =? name then Some k else find_kid name rest
  end.

Fixpoint set_kid (name : string) (k' : node) (kids : list (string * node))
  : list (string * node) :=
  match kids with
  | [] => []
  | (n, k) :: rest =>
      if n =? name then (n, k') :: rest else (n, k) :: set_kid name k' rest
  end.

Fixpoint lookup (segs : list string) (n : node) : option node :=
  match segs with
  | [] => Some n
  | s :: rest =>
      match n with
      | File _ _ => None
      | Dir _ kids =>
          match find_kid s kids with
          | Some k => lookup rest k
          | None => None
          end
      end
  end.

Definition is_dir (segs : list string) (n : node) : bool :=
  match lookup segs n with
  | Some (Dir _ _) => true
  | _ => false
  end.


Definition stats_of (n : node) : stats :=
  match n with
  | File m _ => mkStats KFile m
  | Dir m _ => mkStats KDir m
  end.

(** The error of a path that does not resolve: [ENOTDIR] when a file is in
    the way, [ENOENT] otherwise. *)
Fixpoint missing (segs : list string) (n : node) : errno :=
  match segs, n with
  | _ :: _, File _ _ => ENOTDIR
  | s :: rest, Dir _ kids =>
      match find_kid s kids with
      | Some k => missing rest k
      | None => ENOENT
      end
  | [], _ => ENOENT
  end.

Definition stat (segs : list string) (root : node) : result stats :=
  match lookup segs root with
  | Some n => Ok (stats_of n)
  | None => Err (missing segs root)
  end.

(** [fs.readdir(p)]: the names in the directory, not its descendants. *)
Definition readdir (segs : list string) (root : node) : result (list string) :=
  match lookup segs root with
  | Some (Dir _ kids) => Ok (map fst kids)
  | Some (File _ _) => Err ENOTDIR
  | None => Err (missing segs root)
  end.

Definition readFile (segs : list string) (root : node) : result content :=
  match lookup segs root with
  | Some (File _ d) => Ok d
  | Some (Dir _ _) => Err EISDIR
  | None => Err (missing segs root)
  end.

(** A chain of new directories [s1/s2/.../sn] below a new directory. *)
Fixpoint make_dirs (fresh : meta) (segs : list string) : node :=
  match segs with
  | [] => Dir fresh []
  | s :: rest => Dir fresh [(s, make_dirs fresh rest)]
  end.

(** [fs.mkdir(p, { recursive: true })]. *)
Fixpoint mkdir_p (fresh : meta) (segs : list string) (n : node) : result node :=
  match segs with
  | [] =>
      match n with
      | Dir _ _ => Ok n
      | File _ _ => Err EEXIST
      end
  | s :: rest =>
      match n with
      | File _ _ => Err ENOTDIR
      | Dir m kids =>
          match find_kid s kids with
          | Some k =>
              k' <- mkdir_p fresh rest k ;; Ok (Dir m (set_kid s k' kids))
          | None => Ok (Dir m (kids ++ [(s, make_dirs fresh rest)]))
          end
      end
  end.

(** Replace the node at a path by [f] of what is there ([None] when only
    the last segment is missing). *)
Fixpoint alter_at (f : option node -> result node) (segs : list string)
  (n : node) : result node :=
  match segs with
  | [] => f (Some n)
  | s :: rest =>
      match n with
      | File _ _ => Err ENOTDIR
      | Dir m kids =>
          match find_kid s kids with
          | Some k =>
              k' <- alter_at f rest k ;; Ok (Dir m (set_kid s k' kids))
          | None =>
              match rest with
              | [] => k' <- f None ;; Ok (Dir m (kids ++ [(s, k')]))
              | _ :: _ => Err ENOENT
              end
          end
      end
  end.

Definition with_mode (v : N) (m : meta) : meta :=
  mkMeta v (mtime m) (uid m) (gid m).

Definition with_owner (u g : N) (m : meta) : meta :=
  mkMeta (mode m) (mtime m) u g.

Definition with_mtime (t : N) (m : meta) : meta :=
  mkMeta (mode m) t (uid m) (gid m).

(** Opening a write stream (flags ["w"]): the file is created, or
    truncated when it exists and stamped as a new file would be. *)
Definition open_w (fresh : meta) (o : option node) : result node :=
  match o with
  | Some (File m _) => Ok (File (with_mtime (mtime fresh) m) empty)
  | Some (Dir _ _) => Err EISDIR
  | None => Ok (File fresh empty)
  end.

(** The stream's data reaching the opened file; writing stamps the file
    with the time of the write. *)
Definition put_data (t : N) (d : content) (o : option node) : result node :=
  match o with
  | Some (File m _) => Ok (File (with_mtime t m) d)
  | Some (Dir _ _) => Err EISDIR
  | None => Err ENOENT
  end.

Definition set_meta (g : meta -> meta) (o : option node) : result node :=
  match o with
  | Some (File m d) => Ok (File (g m) d)
  | Some (Dir m kids) => Ok (Dir (g m) kids)
  | None => Err ENOENT
  end.

Definition chmod (v : N) := alter_at (set_meta (with_mode v)).
Definition chown (u g : N) := alter_at (set_meta (with_owner u g)).
Definition utimes (t : N) := alter_at (set_meta (with_mtime t)).

End Fs.

(** ** Calls in flight *)

Module Async.
Import Data.

(** Where the kernel looks a path string up: the segments of its
    resolution against the working directory. *)
Definition fs_path (pr : proc) (p : string) : list string :=
  fst (Path.resolve_segs (cwd pr) [p]).

(** A write stream somebody piped into and did not wait for: created, then
    opened (the file exists, empty), then drained; it is closed, and leaves
    the list, only when its source ends. *)
Inductive phase := Created | Opened | Drained.

Record wjob := mkJob {
  j_path : string;
  j_data : content;
  j_ends : bool;
  j_phase : phase
}.

Inductive job :=
| WriteJob (w : wjob)
| UnzipJob (archive target : string).

(** The [fs/promises] calls [untar] awaits. *)
Inductive op :=
| Mkdir (path : string)
| Chmod (path : string) (v : N)
| Chown (path : string) (u g : N)
| Utimes (path : string) (atime mtime : N).

Inductive event :=
| EvDone (o : op)
| EvFailed (o : op) (e : errno)
| EvOpened (path : string)
| EvWritten (path : string)
| EvClosed (path : string)
| EvStreamError (path : string) (e : errno).

(** The world between two calls: the file system, the streams still at
    work, the stream errors nobody listened for, and what took effect, in
    order. *)
Record state := mkState {
  fs : node;
  jobs : list job;
  unhandled : list errno;
  trace : list event
}.

Definition with_fs (root : node) (ev : list event) (st : state) : state :=
  mkState root (jobs st) (unhandled st) (trace st ++ ev).

Definition with_jobs (js : list job) (st : state) : state :=
  mkState (fs st) js (unhandled st) (trace st).

Definition add_job (j : job) (st : state) : state :=
  with_jobs (jobs st ++ [j]) st.

Definition stream_error (path : string) (e : errno) (st : state) : state :=
  mkState (fs st) (jobs st) (unhandled st ++ [e])
          (trace st ++ [EvStreamError path e]).

Fixpoint remove_nth {A : Type} (i : nat) (l : list A) : list A :=
  match i, l with
  | _, [] => []
  | O, _ :: r => r
  | S k, x :: r => x :: remove_nth k r
  end.

Fixpoint replace_nth {A : Type} (i : nat) (y : A) (l : list A) : list A :=
  match i, l with
  | _, [] => []
  | O, _ :: r => y :: r
  | S k, x :: r => x :: replace_nth k y r
  end.

Definition apply_op (pr : proc) (o : op) (root : node) : result node :=
  match o with
  | Mkdir p => Fs.mkdir_p (fresh_dir pr) (fs_path pr p) root
  | Chmod p v => Fs.chmod v (fs_path pr p) root
  | Chown p u g => Fs.chown u g (fs_path pr p) root
  | Utimes p _ t => Fs.utimes t (fs_path pr p) root
  end.

Definition set_phase (ph : phase) (w : wjob) : wjob :=
  mkJob (j_path w) (j_data w) (j_ends w) ph.

(** One step of a write stream. A failure is an [error] event on a stream
    without a listener. *)
Definition progress_write (pr : proc) (i : nat) (w : wjob) (st : state)
  : option state :=
  let segs := fs_path pr (j_path w) in
  match j_phase w with
  | Created =>
      match Fs.alter_at (Fs.open_w (fresh_file pr)) segs (fs st) with
      | Ok root =>
          Some (with_jobs (replace_nth i (WriteJob (set_phase Opened w)) (jobs st))
                  (with_fs root [EvOpened (j_path w)] st))
      | Err e =>
          Some (with_jobs (remove_nth i (jobs st)) (stream_error (j_path w) e st))
      end
  | Opened =>
      match Fs.alter_at (Fs.put_data (now pr) (j_data w)) segs (fs st) with
      | Ok root =>
          if j_ends w then
            Some (with_jobs (remove_nth i (jobs st))
                    (with_fs root [EvWritten (j_path w); EvClosed (j_path w)] st))
          else
            Some (with_jobs (replace_nth i (WriteJob (set_phase Drained w)) (jobs st))
                    (with_fs root [EvWritten (j_path w)] st))
      | Err e =>
          Some (with_jobs (remove_nth i (jobs st)) (stream_error (j_path w) e st))
      end
  | Drained => None
  end.

(** One step of the [i]-th stream at work. Of an unzip stream only the
    opening of the archive is modelled: what [unzip-stream] then writes
    under the target is the library's. *)
Definition progress (pr : proc) (i : nat) (st : state) : option state :=
  match nth_error (jobs st) i with
  | None => None
  | Some (WriteJob w) => progress_write pr i w st
  | Some (UnzipJob f _) =>
      match Fs.readFile (fs_path pr f) (fs st) with
      | Err e => Some (with_jobs (remove_nth i (jobs st)) (stream_error f e st))
      | Ok _ => None
      end
  end.

(** The body of an async function as far as its writes go: calls it
    awaits (one, or several under [Promise.all]) and pipes it starts. *)
Inductive stmt :=
| Await (ops : list op)
| Pipe (path : string) (data : content).

Inductive status := Running | Failed (e : errno).

Record machine := mkMachine {
  m_state : state;
  m_prog : list stmt;
  m_wait : list op;
  m_status : status
}.

(** Who moves next: the function itself, the [i]-th call it waits for, or
    the [i]-th stream at work. *)
Inductive choice := Main | Complete (i : nat) | Progress (i : nat).

Definition complete_op (pr : proc) (o : op) (st : state) : state * option errno :=
  match apply_op pr o (fs st) with
  | Ok root => (with_fs root [EvDone o] st, None)
  | Err e => (with_fs (fs st) [EvFailed o e] st, Some e)
  end.

Definition fail_with (e : option errno) (s : status) : status :=
  match s, e with
  | Running, Some e => Failed e
  | _, _ => s
  end.

Definition step (pr : proc) (c : choice) (m : machine) : option machine :=
  match c with
  | Main =>
      match m_status m, m_wait m, m_prog m with
      | Running, [], Await ops :: rest =>
          Some (mkMachine (m_state m) rest ops Running)
      | Running, [], Pipe p d :: rest =>
          Some (mkMachine (add_job (WriteJob (mkJob p d true Created)) (m_state m))
                          rest [] Running)
      | _, _, _ => None
      end
  | Complete i =>
      match nth_error (m_wait m) i with
      | Some o =>
          let '(st, e) := complete_op pr o (m_state m) in
          Some (mkMachine st (m_prog m) (remove_nth i (m_wait m))
                          (fail_with e (m_status m)))
      | None => None
      end
  | Progress i =>
      match progress pr i (m_state m) with
      | Some st => Some (mkMachine st (m_prog m) (m_wait m) (m_status m))
      | None => None
      end
  end.

(** A schedule: the choices in order; one that is not enabled is skipped. *)
Fixpoint run (pr : proc) (cs : list choice) (m : machine) : machine :=
  match cs with
  | [] => m
  | c :: rest =>
      match step pr c m with
      | Some m' => run pr rest m'
      | None => run pr rest m
      end
  end.

(** The calls of one [await], completed in order. *)
Fixpoint complete_all (pr : proc) (ops : list op) (st : state) (s : status)
  : state * status :=
  match ops with
  | [] => (st, s)
  | o :: rest =>
      let '(st', e) := complete_op pr o st in
      complete_all pr rest st' (fail_with e s)
  end.

(** The function run to its end with no stream moving meanwhile. *)
Fixpoint finish_prog (pr : proc) (prog : list stmt) (st : state) : state * status :=
  match prog with
  | [] => (st, Running)
  | Await ops :: rest =>
      match complete_all pr ops st Running with
      | (st', Running) => finish_prog pr rest st'
      | (st', Failed e) => (st', Failed e)
      end
  | Pipe p d :: rest =>
      finish_prog pr rest (add_job (WriteJob (mkJob p d true Created)) st)
  end.

Definition finish (pr : proc) (m : machine) : state * status :=
  match complete_all pr (m_wait m) (m_state m) (m_status m) with
  | (st, Running) => finish_prog pr (m_prog m) st
  | (st, Failed e) => (st, Failed e)
  end.

(** How a promise ends, if it does. *)
Inductive outcome (A : Type) :=
| Resolved (a : A)
| Rejected (e : errno)
| NeverSettles.
Arguments Resolved {A} a.
Arguments Rejected {A} e.
Arguments NeverSettles {A}.

End Async.

(** ** The archive functions of [src/index.js] *)

Module Engine.
Import Data Async.

Record response := mkResponse {
  r_status : N;
  r_location : option string
}.

Record compress_body := mkCompress {
  c_dir : string;
  c_target : string;
  c_format : string
}.

Record decompress_body := mkDecompress {
  d_dir : string;
  d_file : string;
  d_target : string;
  d_format : string
}.




(** [x || "/"] on a string: the empty string is falsy. *)
Definition or_root (x : string) : string :=
  if x =? "" then "/" else x.

Section WithProcess.

Variable pr : proc.

(** [getFiles]: the stat of [f]; for a directory, one [readdir] of it
    and the stat of each name it lists. *)
Definition getFiles (f : string) (root : node) : result (list (string * stats)) :=
  stat <- Fs.stat (fs_path pr f) root ;;
  if isDirectory stat then
    dir <- Fs.readdir (fs_path pr f) root ;;
    mapM (fun name =>
            let p := Path.resolve (cwd pr) [f; name] in
            s <- Fs.stat (fs_path pr p) root ;;
            Ok (p, s)) dir
  else Ok [(f, stat)].

(** [path.resolve(f, p).replace(`${cwd}/`, "")]. *)
Definition entry_name (f p : string) : string :=
  Str.remove_first (cwd pr ++ "/") (Path.resolve (cwd pr) [f; p]).

Definition header_of (ty : entry_type) (name : string) (s : stats) : header :=
  let m := st_meta s in
  mkHeader ty name (mode m) (mtime m) (uid m) (gid m).

Definition is_file_entry (x : string * stats) : bool := isFile (snd x).

(** The entries in the order they reach the packer: the callback of a
    directory appends at once, that of a file after its [readFile]. *)
Definition tar_entries (f : string) (files : list (string * stats)) (root : node)
  : result (list (header * content)) :=
  let dirs := filter (fun x => negb (is_file_entry x)) files in
  let regs := filter is_file_entry files in
  read <- mapM (fun x =>
                  d <- Fs.readFile (fs_path pr (fst x)) root ;;
                  Ok (header_of TFile (entry_name f (fst x)) (snd x), d)) regs ;;
  Ok (map (fun x => (header_of TDirectory (entry_name f (fst x)) (snd x), empty))
          dirs ++ read)%list.

Definition zip_entries (f : string) (files : list (string * stats)) (root : node)
  : result (list (header * option content)) :=
  let dirs := filter (fun x => negb (is_file_entry x)) files in
  let regs := filter is_file_entry files in
  read <- mapM (fun x =>
                  d <- Fs.readFile (fs_path pr (fst x)) root ;;
                  Ok (header_of TFile (entry_name f (fst x)) (snd x), Some d)) regs ;;
  Ok (map (fun x => (header_of TDirectory (entry_name f (fst x)) (snd x), None))
          dirs ++ read)%list.

(** [tar]: the packer is piped into the write stream and the name
    returned; the packer is never finalized, so its stream does not end. *)
Definition tar (f : string) (st : state) : outcome string * state :=
  match getFiles f (fs st) with
  | Err e => (Rejected e, st)
  | Ok files =>
      match tar_entries f files (fs st) with
      | Err e => (Rejected e, st)
      | Ok es =>
          let n := f ++ ".tar.gz" in
          (Resolved n, add_job (WriteJob (mkJob n (TarData es) false Created)) st)
      end
  end.

(** [zip]: as [tar], with [archive.finish()] before the pipe. *)
Definition zip (f : string) (st : state) : outcome string * state :=
  match getFiles f (fs st) with
  | Err e => (Rejected e, st)
  | Ok files =>
      match zip_entries f files (fs st) with
      | Err e => (Rejected e, st)
      | Ok es =>
          let n := f ++ ".zip" in
          (Resolved n, add_job (WriteJob (mkJob n (ZipData es) true Created)) st)
      end
  end.

(** [unzip]: the read stream is piped into the extractor; nothing is
    awaited. *)
Definition unzip (f t : string) (st : state) : outcome unit * state :=
  (Resolved tt, add_job (UnzipJob f t) st).

(** The body of the loop of [untar] for one entry, once its [target] is
    resolved. *)
Definition entry_stmts (target : string) (e : header * content) : list stmt :=
  let h := fst e in
  [ Await [Mkdir (Path.dirname target)];
    match h_type h with
    | TFile => Pipe target (snd e)
    | _ => Await [Mkdir target]
    end;
    Await [Chmod target (h_mode h);
           Chown target (h_uid h) (h_gid h);
           Utimes target (now pr) (h_mtime h)] ].

Definition untar_entry (t : string) (e : header * content) : list stmt :=
  entry_stmts (Path.resolve (cwd pr) [t; h_name (fst e)]) e.

Definition untar_prog (t : string) (es : list (header * content)) : list stmt :=
  flat_map (untar_entry t) es.

(** What [createReadStream(f).pipe(extract)] gives the loop to iterate:
    the entries of a tar stream; a parse error, which the loop throws; or,
    when the read stream itself fails, nothing at all: [pipe] forwards no
    error and the extractor is never ended. *)
Inductive feed :=
| Entries (es : list (header * content))
| Broken (e : errno)
| Silent (e : errno).

Definition open_archive (f : string) (root : node) : feed :=
  match Fs.readFile (fs_path pr f) root with
  | Ok (TarData es) => Entries es
  | Ok (Raw "") => Entries []
  | Ok _ => Broken EINVALIDTAR
  | Err e => Silent e
  end.

Definition start (st : state) (prog : list stmt) : machine :=
  mkMachine st prog [] Running.

(** [untar], under the schedule [cs] of what completes when; once the
    schedule is used up the function runs on alone. *)
Definition untar (f t : string) (cs : list choice) (st : state)
  : outcome unit * state :=
  match open_archive f (fs st) with
  | Silent e =>
      (NeverSettles, mkState (fs st) (jobs st) (unhandled st ++ [e]) (trace st))
  | Broken e => (Rejected e, st)
  | Entries es =>
      match finish pr (run pr cs (start st (untar_prog t es))) with
      | (st', Running) => (Resolved tt, st')
      | (st', Failed e) => (Rejected e, st')
      end
  end.

Definition respond {A : Type} (r : outcome A * state) (k : A -> response)
  : outcome response * state :=
  match r with
  | (Resolved a, st) => (Resolved (k a), st)
  | (Rejected e, st) => (Rejected e, st)
  | (NeverSettles, st) => (NeverSettles, st)
  end.

Definition compressHandler (body : compress_body) (st : state)
  : outcome response * state :=
  let dir := or_root (c_dir body) in
  let target := Path.resolve (cwd pr) [cwd pr; "./" ++ dir; "./" ++ c_target body] in
  let format := c_format body in
  if format =? "tar.gz" then
    respond (tar target st) (fun n => mkResponse 204 (Some n))
  else if format =? "zip" then
    respond (zip target st) (fun n => mkResponse 204 (Some n))
  else (Resolved (mkResponse 400 None), st).

Definition decompressHandler (body : decompress_body) (cs : list choice) (st : state)
  : outcome response * state :=
  let dir := or_root (d_dir body) in
  let file := Path.resolve (cwd pr) [cwd pr; "./" ++ dir; "./" ++ d_file body] in
  let target := Path.resolve (cwd pr) [cwd pr; "./" ++ d_target body] in
  let format := d_format body in
  if format =? "tar.gz" then
    respond (untar file target cs st) (fun _ => mkResponse 204 None)
  else if format =? "zip" then
    respond (unzip file target st) (fun _ => mkResponse 204 None)
  else (Resolved (mkResponse 400 None), st).

End WithProcess.

End Engine.


(** ** The first version of [tar] and [untar] in [src/index.js] *)

Module EngineV1.
Import Data Async Engine.

(** [fs.readdir(f, { recursive: true })]: every descendant, by its path
    relative to the directory. *)
Fixpoint descendants (n : node) : list string :=
  match n with
  | File _ _ => []
  | Dir _ kids =>
      (fix below (ks : list (string * node)) : list string :=
         match ks with
         | [] => []
         | (name, k) :: rest =>
             name :: (map (fun q => String.append name (String Str.slash q))
                          (descendants k)
                      ++ below rest)%list
         end) kids
  end.

Definition readdir_recursive (segs : list string) (root : node)
  : result (list string) :=
  match Fs.lookup segs root with
  | Some (Dir m kids) => Ok (descendants (Dir m kids))
  | Some (File _ _) => Err ENOTDIR
  | None => Err (Fs.missing segs root)
  end.

Section WithProcess.

Variable pr : proc.

(** The files the first [tar] packs: the recursive listing of a
    directory, or the path itself. *)
Definition files_v1 (f : string) (root : node) : result (list string) :=
  stat <- Fs.stat (fs_path pr f) root ;;
  if isDirectory stat then readdir_recursive (fs_path pr f) root
  else Ok [f].

Definition stat_v1 (f : string) (root : node) (file : string)
  : result (string * stats) :=
  let p := Path.resolve (cwd pr) [cwd pr; f; file] in
  s <- Fs.stat (fs_path pr p) root ;;
  Ok (file, s).

Definition name_v1 (f file : string) : string :=
  Str.remove_first (cwd pr ++ "/") (Path.resolve (cwd pr) [f; file]).

Definition tar_entries_v1 (f : string) (files : list (string * stats)) (root : node)
  : result (list (header * content)) :=
  let dirs := filter (fun x => negb (is_file_entry x)) files in
  let regs := filter is_file_entry files in
  read <- mapM (fun x =>
                  let p := Path.resolve (cwd pr) [cwd pr; f; fst x] in
                  d <- Fs.readFile (fs_path pr p) root ;;
                  Ok (header_of TFile (name_v1 f (fst x)) (snd x), d)) regs ;;
  Ok (map (fun x => (header_of TDirectory (name_v1 f (fst x)) (snd x), empty))
          dirs ++ read)%list.

Definition tar_v1 (f : string) (st : state) : outcome string * state :=
  match files_v1 f (fs st) with
  | Err e => (Rejected e, st)
  | Ok files =>
      match mapM (stat_v1 f (fs st)) files with
      | Err e => (Rejected e, st)
      | Ok stated =>
          match tar_entries_v1 f stated (fs st) with
          | Err e => (Rejected e, st)
          | Ok es =>
              let n := f ++ ".tar.gz" in
              (Resolved n,
               add_job (WriteJob (mkJob n (TarData es) false Created)) st)
          end
      end
  end.

Definition untar_entry_v1 (t : string) (e : header * content) : list stmt :=
  entry_stmts pr (Path.resolve (cwd pr) [cwd pr; t; h_name (fst e)]) e.

(** The first [untar] begins with [await fs.stat(f)]. *)
Definition untar_v1 (f t : string) (cs : list choice) (st : state)
  : outcome unit * state :=
  match Fs.stat (fs_path pr f) (fs st) with
  | Err e => (Rejected e, st)
  | Ok _ =>
      match open_archive pr f (fs st) with
      | Silent e =>
          (NeverSettles,
           mkState (fs st) (jobs st) (unhandled st ++ [e]) (trace st))
      | Broken e => (Rejected e, st)
      | Entries es =>
          match finish pr (run pr cs (start st (flat_map (untar_entry_v1 t) es))) with
          | (st', Running) => (Resolved tt, st')
          | (st', Failed e) => (Rejected e, st')
          end
      end
  end.

End WithProcess.

End EngineV1.

(** ** A small world to run the functions in *)

Module World.
Import Data Async Engine.

Definition dir_meta : meta := mkMeta 493 1000 0 0.
Definition file_meta : meta := mkMeta 420 2000 1000 1000.

(** The server runs in [/srv]; the clock reads 9999. *)
Definition pr0 : proc :=
  mkProc "/srv" 9999 (mkMeta 438 9999 0 0) (mkMeta 511 9999 0 0).

Definition file_header (name : string) : header :=
  mkHeader TFile name 420 2000 1000 1000.

(** Three archives: one entry three directories deep, one that climbs
    out with [..], and a real gzip-wrapped tar. *)
Definition nested_entries : list (header * content) :=
  [(file_header "a/b/c/file.txt", Raw "nested")].

Definition evil_entries : list (header * content) :=
  [(file_header "../../etc/passwd", Raw "root::0:0")].

(** [/srv/data] holds [a.txt] and [sub/deep.txt]; [/srv/out] is empty;
    [/srv/in] holds the archives. *)
Definition tree0 : node :=
  Dir dir_meta
    [("etc", Dir dir_meta []);
     ("srv", Dir dir_meta
        [("data", Dir dir_meta
            [("a.txt", File file_meta (Raw "hello"));
             ("sub", Dir dir_meta
                [("deep.txt", File file_meta (Raw "deep"))])]);
         ("out", Dir dir_meta []);
         ("in", Dir dir_meta
            [("nested.tar.gz", File file_meta (TarData nested_entries));
             ("evil.tar.gz", File file_meta (TarData evil_entries));
             ("real.tar.gz",
              File file_meta (GzipData (TarData nested_entries)))])])].

Definition st0 : state := mkState tree0 [] [] [].

(** Every step of the [i]-th stream, as far as it goes. *)
Definition drain (pr : proc) (i : nat) (st : state) : state :=
  match progress pr i st with
  | Some st1 =>
      match progress pr i st1 with
      | Some st2 => st2
      | None => st1
      end
  | None => st
  end.

(** [untar] of an archive with a directory entry and then a file entry:
    every call and the stream complete as soon as they can. *)
Definition in_order : list choice :=
  [Main; Complete 0; Main; Complete 0; Main; Complete 0; Complete 0; Complete 0;
   Main; Complete 0; Main; Progress 1; Progress 1;
   Main; Complete 0; Complete 0; Complete 0].

(** [untar] of an archive with one file entry, the stream first. *)
Definition one_file : list choice :=
  [Main; Complete 0; Main; Progress 0; Progress 0;
   Main; Complete 0; Complete 0; Complete 0].

(** The same archive, but the stream has only opened the file when the
    metadata calls complete, and writes after them. *)
Definition metadata_first : list choice :=
  [Main; Complete 0; Main; Progress 0;
   Main; Complete 0; Complete 0; Complete 0; Progress 0].

End World.

(** ** The plain file handlers of [src/index.js] *)

Module Handlers.
Import Data Async Engine.

(** [path.basename]: trailing slashes are ignored, then what follows the
    last slash is kept. *)
Fixpoint take_until_slash (rev_chars : list ascii) : list ascii :=
  match rev_chars with
  | c :: r => if Ascii.eqb c Str.slash then [] else c :: take_until_slash r
  | [] => []
  end.

Definition basename (p : string) : string :=
  string_of_list_ascii
    (rev (take_until_slash (Path.skip_slashes (rev (list_ascii_of_string p))))).

(** [fs.unlink]: a file is taken out of its directory; a directory is
    refused. *)
Definition remove_kid (name : string) (kids : list (string * node))
  : list (string * node) :=
  filter (fun nk => negb (fst nk =? name)) kids.

Fixpoint unlink (segs : list string) (n : node) : result node :=
  match segs with
  | [] => Err EISDIR
  | s :: rest =>
      match n with
      | File _ _ => Err ENOTDIR
      | Dir m kids =>
          match Fs.find_kid s kids with
          | None => Err ENOENT
          | Some k =>
              match rest with
              | [] =>
                  match k with
                  | File _ _ => Ok (Dir m (remove_kid s kids))
                  | Dir _ _ => Err EISDIR
                  end
              | _ :: _ =>
                  k' <- unlink rest k ;; Ok (Dir m (Fs.set_kid s k' kids))
              end
          end
      end
  end.

(** [fs.writeFile(p, data)]: the file is opened for writing, created or
    truncated, and the data put in it, all in the one awaited call. *)
Definition write_w (fresh : meta) (t : N) (d : content) (o : option node)
  : result node :=
  n <- Fs.open_w fresh o ;; Fs.put_data t d (Some n).

Definition writeFile (fresh : meta) (t : N) (d : content) :=
  Fs.alter_at (write_w fresh t d).

(** [fs.copyFile(src, dest)]: the bytes of the file [src] go to [dest],
    which is created or overwritten and gets the mode of [src]. *)
Definition copy_w (fresh : meta) (t : N) (v : N) (d : content) (o : option node)
  : result node :=
  match o with
  | Some (File m _) => Ok (File (mkMeta v t (uid m) (gid m)) d)
  | Some (Dir _ _) => Err EISDIR
  | None => Ok (File (mkMeta v t (uid fresh) (gid fresh)) d)
  end.


(** The object [fileInfo] builds: type, path with the working directory
    stripped, base name, and the fields of the stat. *)
Record info := mkInfo {
  i_type : string;
  i_file : string;
  i_name : string;
  i_stats : stats
}.

(** What [getFileHandler] answers: the bytes of a file, the info of a
    file, or the infos of what a directory holds. *)
Inductive get_reply :=
| Bytes (c : content)
| FileInfo (i : info)
| Listing (l : list info).

Record path_body := mkPathBody {
  p_dir : string;
  p_file : string;
  p_target : string
}.

Record mode_body := mkModeBody {
  m_dir : string;
  m_file : string;
  m_mode : N
}.

(** [fs.Stats] has no [isLink]; with the two kinds [fs.stat] reports here
    the branch that calls it is never reached. *)
Definition isLink (s : stats) : bool := false.

Definition fileType (s : stats) : string :=
  if isFile s then "file"
  else if isDirectory s then "directory"
  else if isLink s then "link"
  else "unknown".

Section WithProcess.

Variable pr : proc.

Definition fileInfo (f : string) (s : stats) : info :=
  mkInfo (fileType s) (Str.remove_first (cwd pr ++ "/") f) (basename f) s.

Definition getFileHandler (param : string) (accept : option string) (root : node)
  : outcome get_reply :=
  let f := Path.resolve (cwd pr) [cwd pr; param] in
  match Fs.stat (fs_path pr f) root with
  | Err e => Rejected e
  | Ok stat =>
      if negb (isDirectory stat) then
        match accept with
        | Some "application/octet-stream" =>
            match Fs.readFile (fs_path pr f) root with
            | Ok c => Resolved (Bytes c)
            | Err e => Rejected e
            end
        | _ => Resolved (FileInfo (fileInfo f stat))
        end
      else
        match Fs.readdir (fs_path pr f) root with
        | Err e => Rejected e
        | Ok dir =>
            match mapM (fun p =>
                          let d := Path.resolve (cwd pr) [f; p] in
                          s <- Fs.stat (fs_path pr d) root ;;
                          Ok (fileInfo d s)) dir with
            | Ok l => Resolved (Listing l)
            | Err e => Rejected e
            end
        end
  end.

Definition deleteFileHandler (param : string) (root : node)
  : outcome response * node :=
  let f := Path.resolve (cwd pr) [cwd pr; param] in
  match unlink (fs_path pr f) root with
  | Ok root' => (Resolved (mkResponse 204 None), root')
  | Err e => (Rejected e, root)
  end.

Definition createFileHandler (param : string) (body : content) (root : node)
  : outcome response * node :=
  let f := Path.resolve (cwd pr) [cwd pr; param] in
  match Fs.mkdir_p (fresh_dir pr) (fs_path pr (Path.dirname f)) root with
  | Err e => (Rejected e, root)
  | Ok made =>
      match writeFile (fresh_file pr) (now pr) body (fs_path pr f) made with
      | Ok root' => (Resolved (mkResponse 204 None), root')
      | Err e => (Rejected e, made)
      end
  end.

Definition modeHandler (body : mode_body) (root : node)
  : outcome response * node :=
  let dir := or_root (m_dir body) in
  let file := Path.resolve (cwd pr) [cwd pr; "./" ++ dir; "./" ++ m_file body] in
  match Fs.chmod (m_mode body) (fs_path pr file) root with
  | Ok root' => (Resolved (mkResponse 204 None), root')
  | Err e => (Rejected e, root)
  end.

Definition createDirectoryHandler (dir_field : string) (root : node)
  : outcome response * node :=
  let dir := or_root dir_field in
  let target := Path.resolve (cwd pr) [cwd pr; "./" ++ dir] in
  match Fs.mkdir_p (fresh_dir pr) (fs_path pr target) root with
  | Ok root' =>
      (Resolved (mkResponse 204 (Some (Str.remove_first (cwd pr) target))), root')
  | Err e => (Rejected e, root)
  end.


(** [fs.rename], whose effect on the tree is not modelled here. *)
Variable rename : list string -> list string -> node -> result node.

Definition renameHandler (body : path_body) (root : node)
  : outcome response * node :=
  let dir := or_root (p_dir body) in
  let file := Path.resolve (cwd pr) [cwd pr; "./" ++ dir; p_file body] in
  let target := Path.resolve (cwd pr) [cwd pr; "./" ++ dir; p_target body] in
  match rename (fs_path pr file) (fs_path pr target) root with
  | Ok root' =>
      (Resolved (mkResponse 204 (Some (Str.remove_first (cwd pr) target))), root')
  | Err e => (Rejected e, root)
  end.

End WithProcess.

End Handlers.

(** ** What the claims speak of *)

Module Props.
Import Data Async Engine.

(** [p] is [t] or lies below it. *)
Definition inside (pr : proc) (t p : string) : bool :=
  Path.is_prefix (fs_path pr t) (fs_path pr p).

(** The directory a path lies in exists. In a tree that makes every
    directory above it exist as well. *)
Definition parent_ready (pr : proc) (root : node) (p : string) : Prop :=
  Fs.is_dir (fs_path pr (Path.dirname p)) root = true.

Definition op_path (o : op) : string :=
  match o with
  | Mkdir p | Chmod p _ | Chown p _ _ | Utimes p _ _ => p
  end.

(** The paths a statement touches. *)
Definition stmt_paths (s : stmt) : list string :=
  match s with
  | Await ops => map op_path ops
  | Pipe p _ => [p]
  end.

(** The names in a directory: each a clean segment, no two the same. *)
Definition names_ok (kids : list (string * node)) : Prop :=
  Forall (fun nk => Path.clean (fst nk)) kids /\ NoDup (map fst kids).

Definition listing_ok (n : node) : Prop :=
  match n with
  | Dir _ kids => names_ok kids
  | File _ _ => True
  end.

Definition resolved (pr : proc) (p : string) : Prop :=
  exists args, p = Path.resolve (cwd pr) args.

Definition job_ready (pr : proc) (root : node) (j : job) : Prop :=
  match j with
  | WriteJob w => resolved pr (j_path w) /\ parent_ready pr root (j_path w)
  | UnzipJob _ _ => True
  end.

(** Every pipe of the program comes right after the awaited [mkdir] of
    the directory it writes into; [prev] is the statement before. *)
Fixpoint guarded (pr : proc) (prev : option (list op)) (prog : list stmt) : Prop :=
  match prog with
  | [] => True
  | Await ops :: rest => guarded pr (Some ops) rest
  | Pipe p _ :: rest =>
      prev = Some [Mkdir (Path.dirname p)] /\ resolved pr p
      /\ guarded pr None rest
  end.

Definition head_ready (pr : proc) (m : machine) : Prop :=
  match m_prog m with
  | Pipe p _ :: rest =>
      resolved pr p /\ guarded pr None rest /\
      (m_status m <> Running
       \/ m_wait m = [Mkdir (Path.dirname p)]
       \/ (m_wait m = [] /\ parent_ready pr (fs (m_state m)) p))
  | prog => guarded pr None prog
  end.

Definition inv (pr : proc) (m : machine) : Prop :=
  Forall (job_ready pr (fs (m_state m))) (jobs (m_state m)) /\ head_ready pr m.

End Props.

(** * Facts *)

Module PathExamples.
Import Path.

Example resolve_nested :
  resolve "/srv" ["/srv/out"; "a/b/c/file.txt"] = "/srv/out/a/b/c/file.txt".
Proof. reflexivity. Qed.

Example resolve_dotdot :
  resolve "/srv" ["/srv/out"; "../../etc/passwd"] = "/etc/passwd".
Proof. reflexivity. Qed.

Example resolve_absolute :
  resolve "/srv" ["/srv/out"; "/etc/passwd"] = "/etc/passwd".
Proof. reflexivity. Qed.

Example resolve_relative_target :
  resolve "/srv" ["out"; "./x/../y"] = "/srv/out/y".
Proof. reflexivity. Qed.

Example dirname_nested : dirname "/srv/out/a/b/c/file.txt" = "/srv/out/a/b/c".
Proof. reflexivity. Qed.

Example dirname_top : dirname "/a" = "/".
Proof. reflexivity. Qed.

Example dirname_root : dirname "/" = "/".
Proof. reflexivity. Qed.

Example dirname_trailing : dirname "/a/b/" = "/a".
Proof. reflexivity. Qed.

Example dirname_relative : dirname "a" = ".".
Proof. reflexivity. Qed.

End PathExamples.

Module PathFacts.
Import Str Path.

Lemma split_slash_nonempty (s : string) : split_slash s <> [].
Proof.
  destruct s as [|c r]; simpl; [discriminate|].
  destruct (Ascii.eqb c slash); [discriminate|].
  destruct (split_slash r); discriminate.
Qed.

Lemma split_slash_app (a b : string) :
  split_slash (a ++ String slash b) = (split_slash a ++ split_slash b)%list.
Proof.
  induction a as [|c a IH]; simpl.
  - reflexivity.
  - destruct (Ascii.eqb c slash).
    + now rewrite IH.
    + rewrite IH. destruct (split_slash a) as [|x xs] eqn:E.
      * now apply split_slash_nonempty in E.
      * reflexivity.
Qed.

Lemma split_slash_plain (s : string) :
  has_slash s = false -> split_slash s = [s].
Proof.
  induction s as [|c r IH]; simpl; intros H; [reflexivity|].
  apply orb_false_iff in H as [Hc Hr]. rewrite Hc, (IH Hr). reflexivity.
Qed.

Lemma split_slash_segments (s : string) :
  Forall (fun x => has_slash x = false) (split_slash s).
Proof.
  induction s as [|c r IH]; simpl.
  - repeat constructor.
  - destruct (Ascii.eqb c slash) eqn:E.
    + constructor; [reflexivity | exact IH].
    + destruct (split_slash r) as [|x xs]; inversion IH; subst;
        constructor; simpl; try rewrite E; auto.
Qed.

Lemma split_join (segs : list string) :
  segs <> [] ->
  Forall (fun x => has_slash x = false) segs ->
  split_slash (join_slash segs) = segs.
Proof.
  induction segs as [|x rest IH]; intros Hne Hall; [congruence|].
  inversion Hall as [|? ? Hx Hrest]; subst.
  destruct rest as [|y rest'].
  - simpl. now apply split_slash_plain.
  - change (join_slash (x :: y :: rest'))
      with (x ++ String slash (join_slash (y :: rest'))).
    rewrite split_slash_app, (split_slash_plain x Hx), IH; auto; discriminate.
Qed.


Lemma push_plain (above : bool) (stack : list string) (s : string) :
  is_plain s = true -> push_segment above stack s = s :: stack.
Proof.
  unfold is_plain, push_segment. intros H.
  apply negb_true_iff, orb_false_iff in H as [H H2].
  now rewrite H, H2.
Qed.

Lemma fold_push_plain (above : bool) (l stack : list string) :
  Forall (fun s => is_plain s = true) l ->
  fold_left (push_segment above) l stack = (rev l ++ stack)%list.
Proof.
  revert stack. induction l as [|x l IH]; intros stack H; [reflexivity|].
  inversion H; subst. simpl. rewrite push_plain, IH by assumption.
  now rewrite <- app_assoc.
Qed.

Lemma normalize_plain (above : bool) (l : list string) :
  Forall (fun s => is_plain s = true) l -> normalizeString above l = l.
Proof.
  intros H. unfold normalizeString.
  rewrite fold_push_plain, app_nil_r by assumption. apply rev_involutive.
Qed.

Lemma push_clean (stack : list string) (s : string) :
  has_slash s = false -> Forall clean stack ->
  Forall clean (push_segment false stack s).
Proof.
  intros Hs Hst. unfold push_segment.
  destruct ((s =? "") || (s =? ".")) eqn:E1; [assumption|].
  destruct (s =? "..") eqn:E2.
  - destruct stack as [|last below]; [constructor|].
    destruct (last =? ".."); [assumption|]. now inversion Hst.
  - constructor; [|assumption]. split; [|assumption].
    unfold is_plain. now rewrite E1, E2.
Qed.

Lemma fold_push_clean (l stack : list string) :
  Forall (fun s => has_slash s = false) l -> Forall clean stack ->
  Forall clean (fold_left (push_segment false) l stack).
Proof.
  revert stack. induction l as [|x l IH]; intros stack Hl Hst; [assumption|].
  inversion Hl; subst. simpl. apply IH; [assumption|]. now apply push_clean.
Qed.

Lemma normalize_clean (s : string) :
  Forall clean (normalizeString false (split_slash s)).
Proof.
  unfold normalizeString. apply Forall_rev, fold_push_clean.
  - apply split_slash_segments.
  - constructor.
Qed.

(** Without [..] a segment never pops: the stack only grows. *)
Lemma fold_push_grows (above : bool) (l stack : list string) :
  ~ In ".." l ->
  exists more, fold_left (push_segment above) l stack = (more ++ stack)%list.
Proof.
  revert stack. induction l as [|x l IH]; intros stack H.
  - now exists [].
  - simpl. destruct (IH (push_segment above stack x)) as [more Hm].
    { intros Hin. apply H. now right. }
    rewrite Hm. unfold push_segment.
    destruct ((x =? "") || (x =? ".")); [now exists more|].
    destruct (x =? "..") eqn:E.
    + apply String.eqb_eq in E. subst. exfalso. apply H. now left.
    + exists (more ++ [x])%list. now rewrite <- app_assoc.
Qed.

Lemma append_assoc (a b c : string) : (a ++ b) ++ c = a ++ (b ++ c).
Proof. induction a as [|x a IH]; simpl; [reflexivity | now rewrite IH]. Qed.

(** What [resolve_loop] has gathered so far stays at the end, untouched. *)
Lemma resolve_loop_acc (l : list string) (acc : string) :
  resolve_loop l acc = (fst (resolve_loop l "") ++ acc, snd (resolve_loop l "")).
Proof.
  revert acc. induction l as [|p rest IH]; intros acc; simpl.
  - reflexivity.
  - destruct (p =? ""); [apply IH|].
    destruct (isAbsolute p); simpl.
    + now rewrite append_assoc.
    + rewrite (IH (p ++ String slash acc)), (IH (p ++ String slash "")).
      simpl. now rewrite !append_assoc.
Qed.

Lemma resolve_loop_ends (l : list string) :
  snd (resolve_loop l "") = true ->
  exists q, fst (resolve_loop l "") = q ++ String slash "".
Proof.
  induction l as [|p rest IH]; simpl; [discriminate|].
  destruct (p =? ""); [exact IH|].
  destruct (isAbsolute p); simpl.
  - intros _. now exists p.
  - rewrite resolve_loop_acc. simpl. intros H. destruct (IH H) as [q Hq].
    rewrite Hq. exists (q ++ String slash p).
    now rewrite !append_assoc.
Qed.

Lemma isAbsolute_nonempty (c : string) : isAbsolute c = true -> (c =? "") = false.
Proof. destruct c; [discriminate | reflexivity]. Qed.

Lemma resolve_loop_absolute (l : list string) (c acc : string) :
  isAbsolute c = true -> snd (resolve_loop (l ++ [c]) acc) = true.
Proof.
  intros Hc. revert acc. induction l as [|p rest IH]; intros acc; simpl.
  - now rewrite (isAbsolute_nonempty c Hc), Hc.
  - destruct (p =? ""); [apply IH|]. destruct (isAbsolute p); [reflexivity | apply IH].
Qed.

Lemma resolve_segs_absolute (c : string) (args : list string) :
  isAbsolute c = true -> snd (resolve_segs c args) = true.
Proof.
  intros Hc. unfold resolve_segs.
  destruct (resolve_loop (rev (c :: args)) "") as [raw abs] eqn:E. simpl.
  change abs with (snd (raw, abs)). rewrite <- E. simpl rev.
  now apply resolve_loop_absolute.
Qed.

Lemma resolve_segs_clean (c : string) (args : list string) :
  isAbsolute c = true -> Forall clean (fst (resolve_segs c args)).
Proof.
  intros Hc. pose proof (resolve_segs_absolute c args Hc) as Ha.
  unfold resolve_segs in *.
  destruct (resolve_loop (rev (c :: args)) "") as [raw abs]. simpl in *. subst abs.
  apply normalize_clean.
Qed.

Lemma resolve_render (c : string) (args : list string) :
  isAbsolute c = true ->
  resolve c args = String slash (join_slash (fst (resolve_segs c args))).
Proof.
  intros Hc. pose proof (resolve_segs_absolute c args Hc) as Ha.
  unfold resolve. destruct (resolve_segs c args) as [segs abs]. simpl in *.
  now subst abs.
Qed.

Lemma clean_plain (segs : list string) :
  Forall clean segs -> Forall (fun s => is_plain s = true) segs.
Proof. apply Forall_impl. now intros s [H _]. Qed.

Lemma clean_noslash (segs : list string) :
  Forall clean segs -> Forall (fun s => has_slash s = false) segs.
Proof. apply Forall_impl. now intros s [_ H]. Qed.

(** The segments of a rendered absolute path are the ones rendered. *)
Lemma resolve_segs_render (c : string) (segs : list string) :
  Forall clean segs ->
  resolve_segs c [String slash (join_slash segs)] = (segs, true).
Proof.
  intros H. unfold resolve_segs.
  change (rev [c; String slash (join_slash segs)])
    with [String slash (join_slash segs); c].
  cbn [resolve_loop String.eqb isAbsolute].
  replace (Ascii.eqb slash slash) with true by reflexivity.
  cbn [negb]. f_equal.
  change (String slash (join_slash segs) ++ String slash "")
    with (String slash (join_slash segs ++ String slash "")).
  cbn [split_slash]. replace (Ascii.eqb slash slash) with true by reflexivity.
  rewrite split_slash_app. unfold normalizeString.
  cbn [fold_left]. change (push_segment false [] "") with (@nil string).
  rewrite fold_left_app. cbn [split_slash fold_left].
  destruct segs as [|x rest].
  - reflexivity.
  - rewrite split_join by (try discriminate; now apply clean_noslash).
    rewrite fold_push_plain by now apply clean_plain.
    rewrite app_nil_r.
    change (push_segment false (rev (x :: rest)) "") with (rev (x :: rest)).
    apply rev_involutive.
Qed.

(** Resolving a resolved path changes nothing. *)
Lemma resolve_segs_resolve (c : string) (args : list string) :
  isAbsolute c = true ->
  fst (resolve_segs c [resolve c args]) = fst (resolve_segs c args).
Proof.
  intros Hc. rewrite (resolve_render c args Hc).
  now rewrite resolve_segs_render by now apply resolve_segs_clean.
Qed.

Lemma is_prefix_app (a b : list string) : is_prefix a (a ++ b) = true.
Proof.
  induction a as [|x a IH]; [reflexivity|]. simpl. now rewrite String.eqb_refl.
Qed.

Lemma resolve_loop_rel (name : string) (l : list string) (acc : string) :
  (name =? "") = false -> isAbsolute name = false ->
  resolve_loop (name :: l) acc = resolve_loop l (name ++ String slash acc).
Proof. intros H1 H2. simpl. now rewrite H1, H2. Qed.

(** A relative last argument without [..] stays below what precedes it. *)
Lemma resolve_segs_below (c t name : string) :
  isAbsolute c = true -> isAbsolute name = false ->
  ~ In ".." (split_slash name) ->
  exists more,
    fst (resolve_segs c [t; name]) = (fst (resolve_segs c [t]) ++ more)%list.
Proof.
  intros Hc Hrel Hdots. unfold resolve_segs.
  change (rev [c; t; name]) with [name; t; c].
  change (rev [c; t]) with [t; c].
  destruct (name =? "") eqn:En.
  { apply String.eqb_eq in En. subst name.
    change (resolve_loop [""; t; c] "") with (resolve_loop [t; c] "").
    exists []. now rewrite app_nil_r. }
  rewrite (resolve_loop_rel name [t; c] "" En Hrel).
  pose proof (resolve_loop_absolute [t] c "" Hc) as Ha.
  change ([t] ++ [c])%list with [t; c] in Ha.
  rewrite (resolve_loop_acc [t; c] (name ++ String slash "")).
  destruct (resolve_loop_ends [t; c] Ha) as [q Hq].
  destruct (resolve_loop [t; c] "") as [raw abs]. simpl in Ha, Hq. subst.
  cbn [fst snd negb]. rewrite append_assoc.
  change (String slash "" ++ name ++ String slash "")
    with (String slash (name ++ String slash "")).
  rewrite !split_slash_app. unfold normalizeString.
  rewrite !fold_left_app. cbn [split_slash fold_left].
  set (S := fold_left (push_segment false) (split_slash q) []).
  change (push_segment false S "") with S.
  destruct (fold_push_grows false (split_slash name) S Hdots) as [more Hm].
  rewrite Hm. change (push_segment false (more ++ S) "") with (more ++ S)%list.
  exists (rev more). apply rev_app_distr.
Qed.

(** *** [dirname] of a rendered path *)

Lemma list_ascii_app (a b : string) :
  list_ascii_of_string (a ++ b)
  = (list_ascii_of_string a ++ list_ascii_of_string b)%list.
Proof. induction a as [|x a IH]; simpl; [reflexivity | now rewrite IH]. Qed.

Lemma has_slash_chars (s : string) :
  has_slash s = false ->
  Forall (fun ch => Ascii.eqb ch slash = false) (list_ascii_of_string s).
Proof.
  induction s as [|x s IH]; simpl; intros H; [constructor|].
  apply orb_false_iff in H as [Hx Hs]. constructor; auto.
Qed.

Lemma skip_slashes_plain (l r : list ascii) :
  l <> [] -> Forall (fun ch => Ascii.eqb ch slash = false) l ->
  skip_slashes (l ++ r) = (l ++ r)%list.
Proof.
  intros Hne H. destruct l as [|x l]; [congruence|].
  inversion H as [|? ? Hx _]; subst. simpl. now rewrite Hx.
Qed.

Lemma cut_at_slash_app (l r : list ascii) :
  Forall (fun ch => Ascii.eqb ch slash = false) l ->
  cut_at_slash (l ++ slash :: r) = Some r.
Proof.
  induction 1 as [|x l Hx _ IH]; simpl; [reflexivity | now rewrite Hx].
Qed.

Lemma cut_at_slash_none (l : list ascii) :
  Forall (fun ch => Ascii.eqb ch slash = false) l -> cut_at_slash l = None.
Proof.
  induction 1 as [|x l Hx _ IH]; simpl; [reflexivity | now rewrite Hx].
Qed.

Lemma join_snoc (pre : list string) (last : string) :
  pre <> [] ->
  join_slash (pre ++ [last]) = join_slash pre ++ String slash last.
Proof.
  induction pre as [|x pre IH]; intros H; [congruence|].
  destruct pre as [|y pre'].
  - reflexivity.
  - change (join_slash ((x :: y :: pre') ++ [last]))
      with (x ++ String slash (join_slash ((y :: pre') ++ [last]))).
    rewrite IH by discriminate.
    change (join_slash (x :: y :: pre'))
      with (x ++ String slash (join_slash (y :: pre'))).
    now rewrite append_assoc.
Qed.

Lemma plain_nonempty (x : string) : is_plain x = true -> x <> "".
Proof. intros H ->. discriminate. Qed.

Lemma join_nonempty (segs : list string) :
  segs <> [] -> Forall clean segs -> join_slash segs <> "".
Proof.
  destruct segs as [|x rest]; [congruence|]. intros _ H.
  inversion H as [|? ? [Hx _] _]; subst.
  apply plain_nonempty in Hx. destruct x as [|ch x']; [congruence|].
  destruct rest; simpl; discriminate.
Qed.

Lemma rev_chars_nonempty (s : string) :
  s <> "" -> rev (list_ascii_of_string s) <> [].
Proof.
  destruct s as [|ch s']; [congruence|]. intros _. simpl.
  intros H. now apply app_eq_nil in H as [_ H].
Qed.

(** On a rendered path [dirname] drops the last segment. *)
Lemma dirname_render (segs : list string) :
  Forall clean segs ->
  dirname (String slash (join_slash segs))
  = String slash (join_slash (removelast segs)).
Proof.
  intros H. destruct segs as [|x0 rest0] eqn:Eseg; [reflexivity|].
  rewrite <- Eseg in *. assert (Hne : segs <> []) by (subst; discriminate).
  clear Eseg. destruct (exists_last Hne) as [pre [last ->]].
  rewrite removelast_last.
  apply Forall_app in H as [Hpre Hlast].
  inversion Hlast as [|? ? [Hpl Hns] _]; subst.
  pose proof (has_slash_chars last Hns) as Hchars.
  apply Forall_rev in Hchars.
  pose proof (rev_chars_nonempty last (plain_nonempty last Hpl)) as Hlne.
  unfold dirname. replace (Ascii.eqb slash slash) with true by reflexivity.
  destruct pre as [|p0 pre'] eqn:Epre.
  - simpl join_slash. rewrite <- (app_nil_r (rev (list_ascii_of_string last))).
    rewrite skip_slashes_plain by assumption. rewrite app_nil_r.
    now rewrite cut_at_slash_none.
  - rewrite <- Epre in *. assert (Hpne : pre <> []) by (subst; discriminate).
    clear Epre. rewrite join_snoc by assumption.
    rewrite list_ascii_app. cbn [list_ascii_of_string].
    rewrite rev_app_distr. cbn [rev]. rewrite <- app_assoc. cbn [app].
    rewrite skip_slashes_plain by assumption.
    rewrite cut_at_slash_app by assumption.
    pose proof (rev_chars_nonempty _ (join_nonempty pre Hpne Hpre)) as Hjne.
    destruct (rev (list_ascii_of_string (join_slash pre))) as [|b bs] eqn:Erev;
      [congruence|].
    rewrite <- Erev, rev_involutive, string_of_list_ascii_of_string.
    reflexivity.
Qed.

(** The directory above a resolved path is where its segments, the last
    left out, lead. *)
Lemma resolve_segs_dirname (c : string) (args : list string) :
  isAbsolute c = true ->
  fst (resolve_segs c [dirname (resolve c args)])
  = removelast (fst (resolve_segs c args)).
Proof.
  intros Hc. rewrite (resolve_render c args Hc).
  pose proof (resolve_segs_clean c args Hc) as Hcl.
  rewrite dirname_render by assumption.
  rewrite resolve_segs_render; [reflexivity|].
  set (segs := fst (resolve_segs c args)) in *. clearbody segs.
  induction Hcl as [|x l Hx Hl IH]; [constructor|].
  destruct l; [constructor|]. simpl. constructor; assumption.
Qed.

(** A clean name as last argument adds itself as the last segment. *)
Lemma clean_relative (name : string) : clean name -> isAbsolute name = false.
Proof.
  intros [_ H]. destruct name as [|ch r]; [reflexivity|].
  simpl in *. now apply orb_false_iff in H as [H _].
Qed.

Lemma resolve_segs_child (c t name : string) :
  isAbsolute c = true -> clean name ->
  fst (resolve_segs c [t; name]) = (fst (resolve_segs c [t]) ++ [name])%list.
Proof.
  intros Hc Hname. pose proof (clean_relative name Hname) as Hrel.
  destruct Hname as [Hpl Hns].
  assert (En : (name =? "") = false).
  { apply String.eqb_neq. now apply plain_nonempty. }
  unfold resolve_segs.
  change (rev [c; t; name]) with [name; t; c].
  change (rev [c; t]) with [t; c].
  rewrite (resolve_loop_rel name [t; c] "" En Hrel).
  pose proof (resolve_loop_absolute [t] c "" Hc) as Ha.
  change ([t] ++ [c])%list with [t; c] in Ha.
  rewrite (resolve_loop_acc [t; c] (name ++ String slash "")).
  destruct (resolve_loop_ends [t; c] Ha) as [q Hq].
  destruct (resolve_loop [t; c] "") as [raw abs]. simpl in Ha, Hq. subst.
  cbn [fst snd negb]. rewrite append_assoc.
  change (String slash "" ++ name ++ String slash "")
    with (String slash (name ++ String slash "")).
  rewrite !split_slash_app. unfold normalizeString.
  rewrite !fold_left_app. cbn [split_slash fold_left].
  set (S := fold_left (push_segment false) (split_slash q) []).
  change (push_segment false S "") with S.
  rewrite (split_slash_plain name Hns). cbn [fold_left].
  rewrite (push_plain false S name Hpl).
  change (push_segment false (name :: S) "") with (name :: S).
  reflexivity.
Qed.

End PathFacts.

(** ** The file system: directories stay *)

Module FsFacts.
Import Data Fs.

Lemma find_kid_set_same (s : string) (k k' : node) (kids : list (string * node)) :
  find_kid s kids = Some k -> find_kid s (set_kid s k' kids) = Some k'.
Proof.
  induction kids as [|[n x] rest IH]; simpl; [discriminate|].
  destruct (n =? s) eqn:E; simpl; rewrite E; auto.
Qed.

Lemma find_kid_set_other (s s' : string) (k' : node) (kids : list (string * node)) :
  s' <> s -> find_kid s' (set_kid s k' kids) = find_kid s' kids.
Proof.
  intros Hne. induction kids as [|[n x] rest IH]; simpl; [reflexivity|].
  destruct (n =? s) eqn:E; simpl.
  - apply String.eqb_eq in E. subst n.
    destruct (s =? s') eqn:E'; [|reflexivity].
    apply String.eqb_eq in E'. congruence.
  - now rewrite IH.
Qed.

Lemma find_kid_app_some (s : string) (k : node) (kids more : list (string * node)) :
  find_kid s kids = Some k -> find_kid s (kids ++ more) = Some k.
Proof.
  induction kids as [|[n x] rest IH]; simpl; [discriminate|].
  destruct (n =? s); auto.
Qed.

Lemma find_kid_app_none (s : string) (k : node) (kids : list (string * node)) :
  find_kid s kids = None -> find_kid s (kids ++ [(s, k)]) = Some k.
Proof.
  induction kids as [|[n x] rest IH]; simpl.
  - now rewrite String.eqb_refl.
  - destruct (n =? s); [discriminate | auto].
Qed.

(** [grows a b]: every directory of [a] is a directory of [b]. *)
Definition grows (a b : node) : Prop :=
  forall q, is_dir q a = true -> is_dir q b = true.

Lemma grows_refl (a : node) : grows a a.
Proof. now intros q. Qed.

Lemma grows_trans (a b c : node) : grows a b -> grows b c -> grows a c.
Proof. intros H1 H2 q Hq. auto. Qed.

Lemma is_dir_file (q : list string) (m : meta) (d : content) :
  is_dir q (File m d) = false.
Proof. destruct q; reflexivity. Qed.

Lemma grows_set_kid (s : string) (k k' : node) (m m' : meta)
  (kids : list (string * node)) :
  find_kid s kids = Some k -> grows k k' ->
  grows (Dir m kids) (Dir m' (set_kid s k' kids)).
Proof.
  intros Hk Hg [|s' r]; [reflexivity|]. unfold is_dir. simpl.
  destruct (String.eqb_spec s' s) as [->|Hne].
  - rewrite Hk, (find_kid_set_same s k k' kids Hk). apply Hg.
  - now rewrite (find_kid_set_other s s' k' kids Hne).
Qed.

Lemma grows_add_kid (s : string) (k' : node) (m : meta)
  (kids : list (string * node)) :
  grows (Dir m kids) (Dir m (kids ++ [(s, k')])).
Proof.
  intros [|s' r]; [reflexivity|]. unfold is_dir. simpl.
  destruct (find_kid s' kids) as [k|] eqn:E; [|discriminate].
  now rewrite (find_kid_app_some s' k kids _ E).
Qed.

Lemma grows_same_kids (m m' : meta) (kids : list (string * node)) :
  grows (Dir m kids) (Dir m' kids).
Proof. intros [|s' r]; [reflexivity | exact (fun H => H)]. Qed.

Lemma is_dir_make_dirs (fresh : meta) (segs : list string) :
  is_dir segs (make_dirs fresh segs) = true.
Proof.
  induction segs as [|s rest IH]; [reflexivity|].
  unfold is_dir in *. simpl. now rewrite String.eqb_refl.
Qed.

Lemma mkdir_p_grows (fresh : meta) (segs : list string) (root root' : node) :
  mkdir_p fresh segs root = Ok root' -> grows root root'.
Proof.
  revert root root'. induction segs as [|s rest IH]; intros root root'; simpl.
  - destruct root; [discriminate|]. intros [= <-]. apply grows_refl.
  - destruct root as [|m kids]; [discriminate|].
    destruct (find_kid s kids) as [k|] eqn:E.
    + destruct (mkdir_p fresh rest k) as [k'|] eqn:Ek; simpl; [|discriminate].
      intros [= <-]. eapply grows_set_kid; eauto.
    + intros [= <-]. apply grows_add_kid.
Qed.

Lemma mkdir_p_is_dir (fresh : meta) (segs : list string) (root root' : node) :
  mkdir_p fresh segs root = Ok root' -> is_dir segs root' = true.
Proof.
  revert root root'. induction segs as [|s rest IH]; intros root root'; simpl.
  - destruct root; [discriminate|]. now intros [= <-].
  - destruct root as [|m kids]; [discriminate|].
    destruct (find_kid s kids) as [k|] eqn:E.
    + destruct (mkdir_p fresh rest k) as [k'|] eqn:Ek; simpl; [|discriminate].
      intros [= <-]. unfold is_dir. simpl.
      rewrite (find_kid_set_same s k k' kids E). now apply (IH k k').
    + intros [= <-]. unfold is_dir. simpl.
      rewrite (find_kid_app_none s _ kids E). apply is_dir_make_dirs.
Qed.

(** A replacement that leaves a directory a directory, with its entries. *)
Definition keeps_dirs (f : option node -> result node) : Prop :=
  forall m kids n, f (Some (Dir m kids)) = Ok n -> exists m', n = Dir m' kids.

Lemma alter_at_grows (f : option node -> result node) (segs : list string)
  (root root' : node) :
  keeps_dirs f -> alter_at f segs root = Ok root' -> grows root root'.
Proof.
  intros Hf. revert root root'.
  induction segs as [|s rest IH]; intros root root'; simpl.
  - destruct root as [m d|m kids].
    + intros _ q Hq. now rewrite is_dir_file in Hq.
    + intros H. destruct (Hf m kids root' H) as [m' ->]. apply grows_same_kids.
  - destruct root as [|m kids]; [discriminate|].
    destruct (find_kid s kids) as [k|] eqn:E.
    + destruct (alter_at f rest k) as [k'|] eqn:Ek; simpl; [|discriminate].
      intros [= <-]. eapply grows_set_kid; eauto.
    + destruct rest; [|discriminate].
      destruct (f None) as [k'|]; simpl; [|discriminate].
      intros [= <-]. apply grows_add_kid.
Qed.

Lemma keeps_dirs_open_w (fresh : meta) : keeps_dirs (open_w fresh).
Proof. intros m kids n H. discriminate. Qed.

Lemma keeps_dirs_put_data (t : N) (d : content) : keeps_dirs (put_data t d).
Proof. intros m kids n H. discriminate. Qed.

Lemma keeps_dirs_set_meta (g : meta -> meta) : keeps_dirs (set_meta g).
Proof. intros m kids n [= <-]. now exists (g m). Qed.

(** Above a directory there are only directories. *)
Lemma is_dir_prefix (a b : list string) (root : node) :
  is_dir (a ++ b) root = true -> is_dir a root = true.
Proof.
  revert root. induction a as [|s a IH]; intros root.
  - destruct root as [|m kids]; [|reflexivity].
    intros H. now rewrite is_dir_file in H.
  - unfold is_dir in *. simpl. destruct root as [|m kids]; [discriminate|].
    destruct (find_kid s kids) as [k|]; [apply IH | discriminate].
Qed.

Lemma lookup_app (a b : list string) (root : node) :
  lookup (a ++ b) root
  = match lookup a root with
    | Some n => lookup b n
    | None => None
    end.
Proof.
  revert root. induction a as [|s a IH]; intros root; [reflexivity|].
  simpl. destruct root as [|m kids]; [reflexivity|].
  destruct (find_kid s kids); [apply IH | reflexivity].
Qed.

Lemma find_kid_in (n : string) (k : node) (kids : list (string * node)) :
  NoDup (map fst kids) -> In (n, k) kids -> find_kid n kids = Some k.
Proof.
  induction kids as [|[n' k'] rest IH]; simpl; [contradiction|].
  intros Hnd [Heq|Hin].
  - injection Heq as -> ->. now rewrite String.eqb_refl.
  - inversion Hnd as [|? ? Hnot Hrest]; subst.
    destruct (String.eqb_spec n' n) as [->|_]; [|auto].
    exfalso. apply Hnot. change n with (fst (n, k)). now apply in_map.
Qed.

Lemma mapM_map {A B : Type} (f : A -> result B) (g : A -> B) (xs : list A) :
  (forall x, In x xs -> f x = Ok (g x)) -> mapM f xs = Ok (map g xs).
Proof.
  induction xs as [|x xs IH]; intros H; [reflexivity|].
  simpl. rewrite (H x (or_introl eq_refl)). simpl.
  rewrite IH by (intros y Hy; apply H; now right). reflexivity.
Qed.


End FsFacts.

(** ** The extraction machine: directories before pipes *)

Module MachineFacts.
Import Data Async Engine Props FsFacts.

Lemma apply_op_grows (pr : proc) (o : op) (root root' : node) :
  apply_op pr o root = Ok root' -> grows root root'.
Proof.
  destruct o; simpl; intros H.
  - eapply mkdir_p_grows; eauto.
  - eapply alter_at_grows; eauto using keeps_dirs_set_meta.
  - eapply alter_at_grows; eauto using keeps_dirs_set_meta.
  - eapply alter_at_grows; eauto using keeps_dirs_set_meta.
Qed.

Lemma job_ready_grows (pr : proc) (root root' : node) (j : job) :
  grows root root' -> job_ready pr root j -> job_ready pr root' j.
Proof.
  intros Hg. destruct j as [w|]; simpl; [|auto].
  intros [Hr Hp]. split; [assumption|]. now apply Hg.
Qed.

Lemma jobs_ready_grow (pr : proc) (root root' : node) (js : list job) :
  grows root root' ->
  Forall (job_ready pr root) js -> Forall (job_ready pr root') js.
Proof. intros Hg. apply Forall_impl. intros j. now apply job_ready_grows. Qed.

Lemma Forall_remove_nth {A : Type} (P : A -> Prop) (i : nat) (l : list A) :
  Forall P l -> Forall P (remove_nth i l).
Proof.
  intros H. revert i. induction H as [|x l Hx Hl IH]; intros i.
  - destruct i; constructor.
  - destruct i; simpl; [assumption | constructor; auto].
Qed.

Lemma Forall_replace_nth {A : Type} (P : A -> Prop) (i : nat) (y : A) (l : list A) :
  P y -> Forall P l -> Forall P (replace_nth i y l).
Proof.
  intros Hy H. revert i. induction H as [|x l Hx Hl IH]; intros i.
  - destruct i; constructor.
  - destruct i; simpl; constructor; auto.
Qed.

Lemma nth_error_Forall {A : Type} (P : A -> Prop) (i : nat) (x : A) (l : list A) :
  Forall P l -> nth_error l i = Some x -> P x.
Proof.
  intros H Hn. apply nth_error_In in Hn. rewrite Forall_forall in H. auto.
Qed.

(** A stream's step keeps the directories and the readiness of all
    streams. *)
Lemma progress_keeps (pr : proc) (i : nat) (st st' : state) :
  progress pr i st = Some st' ->
  grows (fs st) (fs st')
  /\ (Forall (job_ready pr (fs st)) (jobs st) ->
      Forall (job_ready pr (fs st')) (jobs st')).
Proof.
  unfold progress. destruct (nth_error (jobs st) i) as [[w|f t]|] eqn:En;
    [| |discriminate].
  - unfold progress_write. destruct (j_phase w).
    + destruct (Fs.alter_at _ _ _) as [root|e] eqn:Ea; intros [= <-]; simpl.
      * pose proof (alter_at_grows _ _ _ _ (keeps_dirs_open_w _) Ea) as Hg.
        split; [assumption|]. intros Hall.
        apply Forall_replace_nth.
        -- apply (job_ready_grows pr (fs st)); [assumption|].
           exact (nth_error_Forall _ _ _ _ Hall En).
        -- now apply (jobs_ready_grow pr (fs st)).
      * split; [apply grows_refl|]. apply Forall_remove_nth.
    + destruct (Fs.alter_at _ _ _) as [root|e] eqn:Ea.
      * pose proof (alter_at_grows _ _ _ _ (keeps_dirs_put_data _ _) Ea) as Hg.
        destruct (j_ends w); intros [= <-]; simpl;
          (split; [assumption|]); intros Hall.
        -- apply Forall_remove_nth. now apply (jobs_ready_grow pr (fs st)).
        -- apply Forall_replace_nth.
           ++ apply (job_ready_grows pr (fs st)); [assumption|].
              exact (nth_error_Forall _ _ _ _ Hall En).
           ++ now apply (jobs_ready_grow pr (fs st)).
      * intros [= <-]; simpl. split; [apply grows_refl|].
        apply Forall_remove_nth.
    + discriminate.
  - destruct (Fs.readFile _ _); [discriminate|]. intros [= <-]; simpl.
    split; [apply grows_refl|]. apply Forall_remove_nth.
Qed.

Lemma complete_op_grows (pr : proc) (o : op) (st : state) :
  grows (fs st) (fs (fst (complete_op pr o st))).
Proof.
  unfold complete_op. destruct (apply_op pr o (fs st)) eqn:E; simpl.
  - eapply apply_op_grows; eauto.
  - apply grows_refl.
Qed.

Lemma complete_op_jobs (pr : proc) (o : op) (st : state) :
  jobs (fst (complete_op pr o st)) = jobs st.
Proof. unfold complete_op. now destruct (apply_op pr o (fs st)). Qed.

(** An awaited [mkdir] that succeeded left its directory behind. *)
Lemma complete_mkdir (pr : proc) (p : string) (st : state) :
  snd (complete_op pr (Mkdir p) st) = None ->
  Fs.is_dir (fs_path pr p) (fs (fst (complete_op pr (Mkdir p) st))) = true.
Proof.
  unfold complete_op. destruct (apply_op pr (Mkdir p) (fs st)) eqn:E; simpl;
    [|discriminate].
  intros _. simpl in E. eapply mkdir_p_is_dir; eauto.
Qed.

Lemma fail_with_failed (e : option errno) (s : status) :
  s <> Running -> fail_with e s <> Running.
Proof. destruct s; [congruence|]. intros _. destruct e; discriminate. Qed.

Lemma guarded_head (pr : proc) (prog : list stmt) :
  guarded pr None prog ->
  match prog with
  | Pipe _ _ :: _ => False
  | _ => True
  end.
Proof. destruct prog as [|[ops|p d] rest]; simpl; auto. now intros [H _]. Qed.

Lemma head_ready_of_guarded (pr : proc) (m : machine) :
  guarded pr None (m_prog m) -> head_ready pr m.
Proof.
  intros H. pose proof (guarded_head pr _ H) as Hh. unfold head_ready.
  destruct (m_prog m) as [|[ops|p d] rest]; auto. contradiction.
Qed.

Lemma step_inv (pr : proc) (c : choice) (m m' : machine) :
  inv pr m -> step pr c m = Some m' -> inv pr m'.
Proof.
  intros [Hjobs Hhead]. destruct c as [|i|i]; simpl.
  - (* the function moves *)
    destruct (m_status m) eqn:Es; [|discriminate].
    destruct (m_wait m) eqn:Ew; [|destruct (m_prog m) as [|[|]]; discriminate].
    unfold head_ready in Hhead.
    destruct (m_prog m) as [|[ops|p d] rest] eqn:Ep; [discriminate| |];
      intros [= <-]; split; simpl; try assumption.
    + unfold head_ready. simpl. simpl in Hhead.
      destruct rest as [|[ops'|p d] rest']; simpl in *; auto.
      destruct Hhead as [Hprev [Hres Hg]]. injection Hprev as ->.
      repeat split; auto.
    + destruct Hhead as [Hres [Hg [Hs|[Hw|[_ Hp]]]]];
        [congruence | rewrite Ew in Hw; discriminate |].
      apply Forall_app. split; [assumption|]. constructor; [|constructor].
      simpl. now split.
    + destruct Hhead as [_ [Hg _]]. now apply head_ready_of_guarded.
  - (* an awaited call completes *)
    destruct (nth_error (m_wait m) i) as [o|] eqn:En; [|discriminate].
    pose proof (complete_op_grows pr o (m_state m)) as Hg.
    pose proof (complete_op_jobs pr o (m_state m)) as Hj.
    pose proof (complete_mkdir pr) as Hmk.
    destruct (complete_op pr o (m_state m)) as [st e] eqn:Ec. simpl in Hg, Hj.
    intros [= <-]. split; simpl.
    + rewrite Hj. now apply (jobs_ready_grow pr (fs (m_state m))).
    + unfold head_ready in *. simpl.
      destruct (m_prog m) as [|[ops|p d] rest]; auto.
      destruct Hhead as [Hres [Hgd Hcase]]. repeat split; auto.
      destruct Hcase as [Hs|[Hw|[Hw _]]].
      * left. now apply fail_with_failed.
      * rewrite Hw in *. destruct i as [|[|i']]; simpl in En; try discriminate.
        injection En as <-. simpl.
        destruct e as [e|].
        -- left. destruct (m_status m); simpl; discriminate.
        -- right. right. split; [reflexivity|].
           specialize (Hmk (Path.dirname p) (m_state m)).
           rewrite Ec in Hmk. now apply Hmk.
      * rewrite Hw in En. destruct i; discriminate.
  - (* a stream moves *)
    destruct (progress pr i (m_state m)) as [st|] eqn:Epr; [|discriminate].
    destruct (progress_keeps pr i _ _ Epr) as [Hg Hall].
    intros [= <-]. split; simpl; [auto|].
    unfold head_ready in *. simpl.
    destruct (m_prog m) as [|[ops|p d] rest]; auto.
    destruct Hhead as [Hres [Hgd Hcase]]. repeat split; auto.
    destruct Hcase as [Hs|[Hw|[Hw Hp]]]; auto.
    right. right. split; [assumption|]. now apply Hg.
Qed.

Lemma run_inv (pr : proc) (cs : list choice) (m : machine) :
  inv pr m -> inv pr (run pr cs m).
Proof.
  revert m. induction cs as [|c cs IH]; intros m H; simpl; [assumption|].
  destruct (step pr c m) as [m'|] eqn:E; [|auto].
  apply IH. eapply step_inv; eauto.
Qed.

Lemma guarded_untar_prog (pr : proc) (t : string) (es : list (header * content))
  (prev : option (list op)) :
  guarded pr prev (untar_prog pr t es).
Proof.
  revert prev. induction es as [|[h d] es IH]; intros prev; [exact I|].
  unfold untar_prog. simpl flat_map. unfold untar_entry at 1, entry_stmts.
  simpl.
  destruct (h_type h); simpl; try apply IH.
  repeat split; [now eexists | apply IH].
Qed.

Lemma start_inv (pr : proc) (st : state) (t : string) (es : list (header * content)) :
  Forall (job_ready pr (fs st)) (jobs st) ->
  inv pr (start st (untar_prog pr t es)).
Proof.
  intros H. split; [assumption|]. apply head_ready_of_guarded.
  apply guarded_untar_prog.
Qed.

(** *** Nothing is ever taken away *)

Lemma step_grows (pr : proc) (c : choice) (m m' : machine) :
  step pr c m = Some m' -> grows (fs (m_state m)) (fs (m_state m')).
Proof.
  destruct c as [|i|i]; simpl.
  - destruct (m_status m); [|discriminate].
    destruct (m_wait m); [|destruct (m_prog m) as [|[|]]; discriminate].
    destruct (m_prog m) as [|[ops|p d] rest]; [discriminate| |];
      intros [= <-]; apply grows_refl.
  - destruct (nth_error (m_wait m) i) as [o|]; [|discriminate].
    pose proof (complete_op_grows pr o (m_state m)) as Hg.
    destruct (complete_op pr o (m_state m)) as [st e]. now intros [= <-].
  - destruct (progress pr i (m_state m)) as [st|] eqn:E; [|discriminate].
    intros [= <-]. now destruct (progress_keeps pr i _ _ E).
Qed.

Lemma run_grows (pr : proc) (cs : list choice) (m : machine) :
  grows (fs (m_state m)) (fs (m_state (run pr cs m))).
Proof.
  revert m. induction cs as [|c cs IH]; intros m; simpl; [apply grows_refl|].
  destruct (step pr c m) as [m'|] eqn:E; [|apply IH].
  eapply grows_trans; [eapply step_grows; eauto | apply IH].
Qed.

Lemma complete_all_grows (pr : proc) (ops : list op) (st : state) (s : status) :
  grows (fs st) (fs (fst (complete_all pr ops st s))).
Proof.
  revert st s. induction ops as [|o ops IH]; intros st s; simpl;
    [apply grows_refl|].
  pose proof (complete_op_grows pr o st) as Hg.
  destruct (complete_op pr o st) as [st' e]. simpl in Hg.
  eapply grows_trans; [exact Hg | apply IH].
Qed.

Lemma finish_prog_grows (pr : proc) (prog : list stmt) (st : state) :
  grows (fs st) (fs (fst (finish_prog pr prog st))).
Proof.
  revert st. induction prog as [|[ops|p d] rest IH]; intros st; simpl.
  - apply grows_refl.
  - pose proof (complete_all_grows pr ops st Running) as Hg.
    destruct (complete_all pr ops st Running) as [st' [|e]]; simpl in Hg.
    + eapply grows_trans; [exact Hg | apply IH].
    + exact Hg.
  - apply (IH (add_job (WriteJob (mkJob p d true Created)) st)).
Qed.

Lemma finish_grows (pr : proc) (m : machine) :
  grows (fs (m_state m)) (fs (fst (finish pr m))).
Proof.
  unfold finish.
  pose proof (complete_all_grows pr (m_wait m) (m_state m) (m_status m)) as Hg.
  destruct (complete_all pr (m_wait m) (m_state m) (m_status m)) as [st [|e]];
    simpl in Hg.
  - eapply grows_trans; [exact Hg | apply finish_prog_grows].
  - exact Hg.
Qed.

End MachineFacts.

(** ** What [getFiles] returns *)

Module EngineFacts.
Import Data Async Engine Props.

Lemma getFiles_of_file (pr : proc) (f : string) (root : node) (s : stats) :
  Fs.stat (fs_path pr f) root = Ok s -> isDirectory s = false ->
  getFiles pr f root = Ok [(f, s)].
Proof. intros Hs Hd. unfold getFiles. rewrite Hs. simpl. now rewrite Hd. Qed.

Lemma getFiles_of_directory (pr : proc) (f : string) (root : node) (m : meta)
  (kids : list (string * node)) :
  Path.isAbsolute (cwd pr) = true ->
  Fs.lookup (fs_path pr f) root = Some (Dir m kids) ->
  names_ok kids ->
  getFiles pr f root
  = Ok (map (fun nk => (Path.resolve (cwd pr) [f; fst nk], Fs.stats_of (snd nk)))
            kids).
Proof.
  intros Hc Hl [Hclean Hnd]. unfold getFiles, Fs.stat, Fs.readdir.
  rewrite Hl. simpl.
  rewrite (FsFacts.mapM_map _
             (fun name =>
                (Path.resolve (cwd pr) [f; name],
                 match Fs.find_kid name kids with
                 | Some k => Fs.stats_of k
                 | None => Fs.stats_of (Dir m kids)
                 end))).
  - rewrite map_map. f_equal. apply map_ext_in. intros [n k] Hin. simpl.
    now rewrite (FsFacts.find_kid_in n k kids Hnd Hin).
  - intros name Hin. apply in_map_iff in Hin as [[n k] [<- Hin]]. simpl.
    rewrite Forall_forall in Hclean. pose proof (Hclean _ Hin) as Hn.
    simpl in Hn. unfold fs_path.
    rewrite PathFacts.resolve_segs_resolve by assumption.
    rewrite PathFacts.resolve_segs_child by assumption.
    rewrite FsFacts.lookup_app. unfold fs_path in Hl. rewrite Hl. simpl.
    now rewrite (FsFacts.find_kid_in n k kids Hnd Hin).
Qed.



End EngineFacts.

(** * The claims *)

Module Containment.
Import Data Async Engine Props World PathFacts.

(** C2, as stated, fails: [untar] resolves the entry name
    [../../etc/passwd] of an archive extracted into [/srv/out] to
    [/etc/passwd], which is not inside [/srv/out], and the run writes the
    entry's bytes there. *)
Lemma untar_writes_outside_target :
  let target := Path.resolve (cwd pr0) ["/srv/out"; "../../etc/passwd"] in
  let r := untar pr0 "/srv/in/evil.tar.gz" "/srv/out" one_file st0 in
  target = "/etc/passwd"
  /\ inside pr0 "/srv/out" target = false
  /\ fst r = Resolved tt
  /\ Fs.readFile ["etc"; "passwd"] (fs (snd r)) = Ok (Raw "root::0:0").
Proof. vm_compute. repeat split. Qed.

(** The same with an absolute entry name. *)
Example untar_absolute_name :
  Path.resolve (cwd pr0) ["/srv/out"; "/etc/passwd"] = "/etc/passwd"
  /\ inside pr0 "/srv/out" "/etc/passwd" = false.
Proof. vm_compute. split; reflexivity. Qed.

Lemma entry_paths (pr : proc) (target : string) (e : header * content) :
  Forall (fun p => p = target \/ p = Path.dirname target)
         (flat_map stmt_paths (entry_stmts pr target e)).
Proof.
  unfold entry_stmts. destruct (h_type (fst e)); simpl;
    repeat (apply Forall_cons || apply Forall_nil); auto.
Qed.

(** C2, amended: for an entry whose name is relative and has no [..]
    segment, the path [untar] resolves is the target directory or lies
    below it; every path the entry's statements pipe to, chmod, chown,
    utimes or mkdir is that path or its parent directory, and the parent
    is inside the target as well unless the name resolves to the target
    itself. *)
Theorem untar_entry_inside (pr : proc) (t : string) (e : header * content) :
  Path.isAbsolute (cwd pr) = true ->
  Path.isAbsolute (h_name (fst e)) = false ->
  ~ In ".." (Str.split_slash (h_name (fst e))) ->
  let target := Path.resolve (cwd pr) [t; h_name (fst e)] in
  inside pr t target = true
  /\ Forall (fun p => p = target \/ p = Path.dirname target)
            (flat_map stmt_paths (untar_entry pr t e))
  /\ (inside pr t (Path.dirname target) = true
      \/ fs_path pr target = fs_path pr t).
Proof.
  intros Hc Hrel Hdots target.
  destruct (resolve_segs_below (cwd pr) t (h_name (fst e)) Hc Hrel Hdots)
    as [more Hmore].
  assert (Ht : fs_path pr target = (fs_path pr t ++ more)%list).
  { unfold fs_path, target. now rewrite resolve_segs_resolve. }
  split; [|split].
  - unfold inside. rewrite Ht. apply is_prefix_app.
  - apply entry_paths.
  - destruct more as [|x more'] eqn:Em.
    + right. now rewrite Ht, app_nil_r.
    + left. unfold inside, fs_path, target.
      rewrite resolve_segs_dirname by assumption. rewrite Hmore.
      rewrite removelast_app by discriminate. apply is_prefix_app.
Qed.

(** The amended C2 at the entry [a/b/c/file.txt] extracted into
    [/srv/out]. *)
Lemma untar_entry_inside_witness :
  inside pr0 "/srv/out" "/srv/out/a/b/c/file.txt" = true
  /\ inside pr0 "/srv/out" "/srv/out/a/b/c" = true.
Proof.
  destruct (untar_entry_inside pr0 "/srv/out"
              (file_header "a/b/c/file.txt", Raw "nested")) as [H1 [_ H2]].
  - reflexivity.
  - reflexivity.
  - vm_compute. intros [H|[H|[H|[H|[]]]]]; discriminate.
  - split; [exact H1|]. destruct H2 as [H2|H2]; [exact H2 | discriminate].
Defined.

End Containment.

Module Formats.
Import Data Async Engine Props World.

(** C8: for a format other than ["tar.gz"] and ["zip"], [compressHandler]
    answers 400 and leaves the world as it was: the file system is
    unchanged and no stream has been started. *)
Theorem compress_rejects_other_formats (pr : proc) (body : compress_body)
  (st : state) :
  c_format body <> "tar.gz" -> c_format body <> "zip" ->
  compressHandler pr body st = (Resolved (mkResponse 400 None), st).
Proof.
  intros H1 H2. unfold compressHandler.
  destruct (String.eqb_spec (c_format body) "tar.gz"); [contradiction|].
  destruct (String.eqb_spec (c_format body) "zip"); [contradiction|].
  reflexivity.
Qed.

(** C8 at the format ["rar"]. *)
Lemma compress_rejects_rar :
  compressHandler pr0 (mkCompress "" "data" "rar") st0
  = (Resolved (mkResponse 400 None), st0).
Proof.
  apply (compress_rejects_other_formats pr0 (mkCompress "" "data" "rar") st0);
    discriminate.
Defined.

(** C10: [unzip] resolves at once, for any archive path: the file system
    and the trace are as before, the extractor is merely added to the
    streams at work; [decompressHandler] answers 204 on that; and when the
    archive cannot be read the stream's later step files the error with
    those nobody listened for, after the call has resolved. *)
Theorem unzip_returns_before_extraction (pr : proc) (f t : string) (st : state) :
  unzip f t st = (Resolved tt, add_job (UnzipJob f t) st)
  /\ fs (snd (unzip f t st)) = fs st
  /\ trace (snd (unzip f t st)) = trace st
  /\ jobs (snd (unzip f t st)) = (jobs st ++ [UnzipJob f t])%list
  /\ (forall dir file target cs,
        fst (decompressHandler pr (mkDecompress dir file target "zip") cs st)
        = Resolved (mkResponse 204 None)
        /\ fs (snd (decompressHandler pr (mkDecompress dir file target "zip") cs st))
           = fs st)
  /\ progress pr (length (jobs st)) (snd (unzip f t st))
     = match Fs.readFile (fs_path pr f) (fs st) with
       | Err e =>
           Some (mkState (fs st) (jobs st) (unhandled st ++ [e])
                         (trace st ++ [EvStreamError f e]))
       | Ok _ => None
       end.
Proof.
  repeat split.
  unfold progress, unzip. simpl.
  rewrite nth_error_app2 by lia. rewrite Nat.sub_diag. simpl.
  destruct (Fs.readFile (fs_path pr f) (fs st)); [reflexivity|].
  unfold with_jobs, stream_error. simpl. f_equal. f_equal.
  induction (jobs st) as [|j js IH]; simpl; [reflexivity | now rewrite IH].
Qed.

End Formats.

Module Nesting.
Import Data Async Engine Props World PathFacts FsFacts MachineFacts.

(** C9: at every point of every run of [untar], each write stream at work
    (from the moment its pipe is started until its content is written) has
    all the directories above its file in place: whatever the schedule,
    the content of [a/b/c/file.txt] is written with [a], [a/b] and [a/b/c]
    already there. *)
Theorem untar_parents_before_content (pr : proc) (st : state) (t : string)
  (es : list (header * content)) (cs : list choice) (w : wjob)
  (above below : list string) :
  Path.isAbsolute (cwd pr) = true ->
  Forall (job_ready pr (fs st)) (jobs st) ->
  In (WriteJob w) (jobs (m_state (run pr cs (start st (untar_prog pr t es))))) ->
  fs_path pr (j_path w) = (above ++ below)%list -> below <> [] ->
  Fs.is_dir above (fs (m_state (run pr cs (start st (untar_prog pr t es))))) = true.
Proof.
  intros Hc Hst Hin Hsplit Hne.
  destruct (run_inv pr cs _ (start_inv pr st t es Hst)) as [Hjobs _].
  rewrite Forall_forall in Hjobs. specialize (Hjobs _ Hin).
  destruct Hjobs as [[args Hres] Hpar]. unfold parent_ready in Hpar.
  unfold fs_path in Hpar, Hsplit. rewrite Hres in Hpar, Hsplit.
  rewrite resolve_segs_dirname in Hpar by assumption.
  rewrite resolve_segs_resolve in Hsplit by assumption.
  rewrite Hsplit, removelast_app in Hpar by assumption.
  eapply is_dir_prefix; eauto.
Qed.

(** C9 at [a/b/c/file.txt] extracted into the empty [/srv/out]: when the
    pipe has just been started, [/srv/out/a/b/c] exists. *)
Lemma untar_parents_witness :
  Fs.is_dir ["srv"; "out"; "a"; "b"; "c"]
    (fs (m_state (run pr0 [Main; Complete 0; Main]
                      (start st0 (untar_prog pr0 "/srv/out" nested_entries)))))
  = true.
Proof.
  apply (untar_parents_before_content pr0 st0 "/srv/out" nested_entries
           [Main; Complete 0; Main]
           (mkJob "/srv/out/a/b/c/file.txt" (Raw "nested") true Created)
           ["srv"; "out"; "a"; "b"; "c"] ["file.txt"]).
  - reflexivity.
  - constructor.
  - vm_compute. left. reflexivity.
  - reflexivity.
  - discriminate.
Defined.

(** The run to its end: the file is there, below the new directories. *)
Example untar_nested_run :
  let r := untar pr0 "/srv/in/nested.tar.gz" "/srv/out" one_file st0 in
  fst r = Resolved tt
  /\ Fs.readFile ["srv"; "out"; "a"; "b"; "c"; "file.txt"] (fs (snd r))
     = Ok (Raw "nested")
  /\ Fs.is_dir ["srv"; "out"; "a"] tree0 = false.
Proof. vm_compute. repeat split. Qed.

End Nesting.

Module Enumeration.
Import Data Async Engine EngineV1 Props World.

(** C3 at [/srv/data], which holds [a.txt] and [sub/deep.txt]: [getFiles]
    returns the two names of the directory and not [sub/deep.txt]; the
    listing of the first [tar], [readdir] with [recursive: true], has it. *)
Theorem getFiles_lists_children_only :
  getFiles pr0 "/srv/data" tree0
  = Ok [("/srv/data/a.txt", mkStats KFile file_meta);
        ("/srv/data/sub", mkStats KDir dir_meta)]
  /\ Fs.readFile ["srv"; "data"; "sub"; "deep.txt"] tree0 = Ok (Raw "deep")
  /\ files_v1 pr0 "/srv/data" tree0 = Ok ["a.txt"; "sub"; "sub/deep.txt"].
Proof. vm_compute. repeat split. Qed.

(** C1 at the same tree: the archive [tar] writes has entries for
    [data/sub] and [data/a.txt] only, and after extracting it into
    [/srv/out], every call and stream completing in order, [a.txt] is
    back with its bytes while [sub] is empty: [deep.txt] is lost. [zip]
    packs the same two entries. *)
Theorem roundtrip_drops_nested_file :
  let written := drain pr0 0 (snd (tar pr0 "/srv/data" st0)) in
  let r := untar pr0 "/srv/data.tar.gz" "/srv/out" in_order written in
  Fs.readFile ["srv"; "data"; "sub"; "deep.txt"] tree0 = Ok (Raw "deep")
  /\ fst (tar pr0 "/srv/data" st0) = Resolved "/srv/data.tar.gz"
  /\ Fs.readFile ["srv"; "data.tar.gz"] (fs written)
     = Ok (TarData
             [(mkHeader TDirectory "data/sub" 493 1000 0 0, Raw "");
              (mkHeader TFile "data/a.txt" 420 2000 1000 1000, Raw "hello")])
  /\ fst r = Resolved tt
  /\ Fs.readFile ["srv"; "out"; "data"; "a.txt"] (fs (snd r)) = Ok (Raw "hello")
  /\ Fs.lookup ["srv"; "out"; "data"; "sub"] (fs (snd r)) = Some (Dir dir_meta [])
  /\ Fs.lookup ["srv"; "out"; "data"; "sub"; "deep.txt"] (fs (snd r)) = None
  /\ jobs (snd (zip pr0 "/srv/data" st0))
     = [WriteJob
          (mkJob "/srv/data.zip"
             (ZipData
                [(mkHeader TDirectory "data/sub" 493 1000 0 0, None);
                 (mkHeader TFile "data/a.txt" 420 2000 1000 1000,
                  Some (Raw "hello"))])
             true Created)].
Proof. vm_compute. repeat split. Qed.

(** [getFiles] goes one level down: for a path that is not a directory
    it returns the path itself with its stat; for a directory, one pair
    for each name in it, the resolved path of the child with the child's
    own stat, and nothing from further down. *)
Theorem getFiles_one_level (pr : proc) (f : string) (root nd : node) :
  Path.isAbsolute (cwd pr) = true ->
  Fs.lookup (fs_path pr f) root = Some nd -> listing_ok nd ->
  getFiles pr f root
  = Ok match nd with
       | File _ _ => [(f, Fs.stats_of nd)]
       | Dir _ kids =>
           map (fun nk =>
                  (Path.resolve (cwd pr) [f; fst nk], Fs.stats_of (snd nk)))
               kids
       end.
Proof.
  intros Hc Hl Hok. destruct nd as [m d|m kids].
  - apply EngineFacts.getFiles_of_file; [|reflexivity].
    unfold Fs.stat. now rewrite Hl.
  - now apply (EngineFacts.getFiles_of_directory pr f root m kids).
Qed.

Lemma getFiles_one_level_witness :
  getFiles pr0 "/srv/data/a.txt" tree0
  = Ok [("/srv/data/a.txt", mkStats KFile file_meta)]
  /\ getFiles pr0 "/srv/data/sub" tree0
     = Ok [("/srv/data/sub/deep.txt", mkStats KFile file_meta)].
Proof.
  split.
  - apply (getFiles_one_level pr0 "/srv/data/a.txt" tree0
             (File file_meta (Raw "hello"))); reflexivity || exact I.
  - apply (getFiles_one_level pr0 "/srv/data/sub" tree0
             (Dir dir_meta [("deep.txt", File file_meta (Raw "deep"))])).
    + reflexivity.
    + reflexivity.
    + split; repeat constructor. simpl. intuition.
Defined.

End Enumeration.

Module Writer.
Import Data Async Engine Props World.

(** C4 at [/srv/data]: [tar] resolves with [/srv/data.tar.gz] while
    nothing is on disk under that name and the write stream is only
    created; when the stream has done all it ever does the bytes are
    there but the file was never closed, for the packer never ends. [zip]
    resolves as early; its stream does close later. *)
Theorem tar_returns_unfinished_archive :
  let r := tar pr0 "/srv/data" st0 in
  let z := zip pr0 "/srv/data" st0 in
  fst r = Resolved "/srv/data.tar.gz"
  /\ Fs.lookup ["srv"; "data.tar.gz"] (fs (snd r)) = None
  /\ map (fun j => match j with
                  | WriteJob w => (j_path w, j_phase w)
                  | UnzipJob f _ => (f, Drained)
                  end) (jobs (snd r))
     = [("/srv/data.tar.gz", Created)]
  /\ trace (drain pr0 0 (snd r))
     = [EvOpened "/srv/data.tar.gz"; EvWritten "/srv/data.tar.gz"]
  /\ progress pr0 0 (drain pr0 0 (snd r)) = None
  /\ length (jobs (drain pr0 0 (snd r))) = 1
  /\ fst z = Resolved "/srv/data.zip"
  /\ Fs.lookup ["srv"; "data.zip"] (fs (snd z)) = None
  /\ trace (drain pr0 0 (snd z))
     = [EvOpened "/srv/data.zip"; EvWritten "/srv/data.zip";
        EvClosed "/srv/data.zip"]
  /\ jobs (drain pr0 0 (snd z)) = [].
Proof. vm_compute. repeat split. Qed.

(** C5 at [/srv/data] and at a gzip-wrapped tar: what [tar] puts under the
    name [data.tar.gz] is the bare tar stream, and [untar] hands the bytes
    of a real [.tar.gz] to the tar parser as they are, which rejects
    them. *)
Theorem tar_gz_has_no_gzip_stage (cs : list choice) :
  (exists es,
      Fs.readFile ["srv"; "data.tar.gz"]
        (fs (drain pr0 0 (snd (tar pr0 "/srv/data" st0))))
      = Ok (TarData es))
  /\ Fs.readFile ["srv"; "in"; "real.tar.gz"] tree0
     = Ok (GzipData (TarData nested_entries))
  /\ untar pr0 "/srv/in/real.tar.gz" "/srv/out" cs st0
     = (Rejected EINVALIDTAR, st0).
Proof.
  split; [|split].
  - vm_compute. eexists. reflexivity.
  - reflexivity.
  - reflexivity.
Qed.



End Writer.

Module Extractor.
Import Data Async Engine EngineV1 Props World.

(** C6 at an archive with the one file [a/b/c/file.txt]: in a run where
    the stream has opened the file but not yet written, [chmod], [chown]
    and [utimes] complete before the content is written; [untar] resolves,
    and the file ends with the time of the write, not the entry's 2000. *)
Theorem untar_restores_metadata_before_content :
  let r := untar pr0 "/srv/in/nested.tar.gz" "/srv/out" metadata_first st0 in
  fst r = Resolved tt
  /\ trace (snd r)
     = [EvDone (Mkdir "/srv/out/a/b/c");
        EvOpened "/srv/out/a/b/c/file.txt";
        EvDone (Chmod "/srv/out/a/b/c/file.txt" 420);
        EvDone (Chown "/srv/out/a/b/c/file.txt" 1000 1000);
        EvDone (Utimes "/srv/out/a/b/c/file.txt" 9999 2000);
        EvWritten "/srv/out/a/b/c/file.txt";
        EvClosed "/srv/out/a/b/c/file.txt"]
  /\ Fs.stat ["srv"; "out"; "a"; "b"; "c"; "file.txt"] (fs (snd r))
     = Ok (mkStats KFile (mkMeta 420 9999 1000 1000)).
Proof. vm_compute. repeat split. Qed.

(** When no stream moves before the metadata calls, the file is not there
    yet and [chmod] fails. *)
Example untar_chmod_too_early :
  fst (untar pr0 "/srv/in/nested.tar.gz" "/srv/out" [] st0) = Rejected ENOENT.
Proof. reflexivity. Qed.

(** A directory entry is created by an awaited [mkdir] before its
    metadata calls start. *)
Example untar_directory_entry :
  entry_stmts pr0 "/srv/out/d" (mkHeader TDirectory "d" 493 1000 0 0, Raw "")
  = [Await [Mkdir "/srv/out"];
     Await [Mkdir "/srv/out/d"];
     Await [Chmod "/srv/out/d" 493; Chown "/srv/out/d" 0 0;
            Utimes "/srv/out/d" 9999 1000]].
Proof. reflexivity. Qed.

(** C7 at [/srv/in/nope.tar.gz] and [/srv/in/nope.zip], which do not
    exist: [untar] never settles, the read stream's [ENOENT] going to
    nobody, and so does the handler; for ["zip"] the handler answers 204.
    The first [untar], which stats the archive first, rejects with
    [ENOENT], as [tar] does for a root that is not there. *)
Theorem untar_missing_archive_never_settles (cs : list choice) :
  Fs.lookup ["srv"; "in"; "nope.tar.gz"] tree0 = None
  /\ untar pr0 "/srv/in/nope.tar.gz" "/srv/out" cs st0
     = (NeverSettles, mkState tree0 [] [ENOENT] [])
  /\ fst (decompressHandler pr0 (mkDecompress "in" "nope.tar.gz" "out" "tar.gz")
                            cs st0)
     = NeverSettles
  /\ fst (decompressHandler pr0 (mkDecompress "in" "nope.zip" "out" "zip") cs st0)
     = Resolved (mkResponse 204 None)
  /\ untar_v1 pr0 "/srv/in/nope.tar.gz" "/srv/out" cs st0 = (Rejected ENOENT, st0)
  /\ tar pr0 "/srv/nope" st0 = (Rejected ENOENT, st0).
Proof. repeat split. Qed.

(** [untar] takes nothing away: whatever the archive and the schedule,
    and whether it resolves, rejects or never settles, every directory
    that was there before is there after. *)
Theorem untar_keeps_directories (pr : proc) (f t : string) (cs : list choice)
  (st : state) (q : list string) :
  Fs.is_dir q (fs st) = true ->
  Fs.is_dir q (fs (snd (untar pr f t cs st))) = true.
Proof.
  intros H. unfold untar. destruct (open_archive pr f (fs st)); simpl; auto.
  pose proof (MachineFacts.run_grows pr cs (start st (untar_prog pr t es))) as H1.
  pose proof (MachineFacts.finish_grows pr
                (run pr cs (start st (untar_prog pr t es)))) as H2.
  destruct (finish pr (run pr cs (start st (untar_prog pr t es)))) as [st' [|e]];
    simpl in *; auto.
Qed.

Lemma untar_keeps_directories_witness :
  Fs.is_dir ["srv"; "data"; "sub"]
    (fs (snd (untar pr0 "/srv/in/evil.tar.gz" "/srv/out" one_file st0))) = true.
Proof.
  apply (untar_keeps_directories pr0 "/srv/in/evil.tar.gz" "/srv/out" one_file
           st0 ["srv"; "data"; "sub"]).
  reflexivity.
Defined.

End Extractor.

(** * More of the code: the plain file handlers *)

(** ** The tree under one change *)

Module TreeFacts.
Import Data Fs Handlers FsFacts.

Lemma stat_nil (n : node) : stat [] n = Ok (stats_of n).
Proof. reflexivity. Qed.

Lemma stat_cons (s : string) (r : list string) (m : meta)
  (kids : list (string * node)) :
  stat (s :: r) (Dir m kids)
  = match find_kid s kids with
    | Some k => stat r k
    | None => Err ENOENT
    end.
Proof. unfold stat. simpl. now destruct (find_kid s kids). Qed.

Lemma readFile_cons (s : string) (r : list string) (m : meta)
  (kids : list (string * node)) :
  readFile (s :: r) (Dir m kids)
  = match find_kid s kids with
    | Some k => readFile r k
    | None => Err ENOENT
    end.
Proof. unfold readFile. simpl. now destruct (find_kid s kids). Qed.

Lemma is_prefix_nil_r (a : list string) :
  Path.is_prefix a [] = false -> a <> [].
Proof. now destruct a. Qed.

(** What a change at [segs] puts there. *)
Lemma alter_at_lookup (f : option node -> result node) (segs : list string)
  (root root' : node) :
  alter_at f segs root = Ok root' ->
  exists n', f (lookup segs root) = Ok n' /\ lookup segs root' = Some n'.
Proof.
  revert root root'. induction segs as [|s rest IH]; intros root root'; simpl.
  - intros H. now exists root'.
  - destruct root as [|m kids]; [discriminate|].
    destruct (find_kid s kids) as [k|] eqn:E.
    + destruct (alter_at f rest k) as [k'|] eqn:Ek; simpl; [|discriminate].
      intros [= <-]. destruct (IH k k' Ek) as [n' [H1 H2]].
      exists n'. simpl. now rewrite (find_kid_set_same s k k' kids E).
    + destruct rest; [|discriminate].
      destruct (f None) as [k'|] eqn:Ef; simpl; [|discriminate].
      intros [= <-]. exists k'. simpl.
      now rewrite (find_kid_app_none s k' kids E).
Qed.

(** A change at [segs] is not seen from a path that is neither [segs] nor
    below it: its stat and what can be read there are as before. *)
Lemma alter_at_stat_frame (f : option node -> result node) (segs q : list string)
  (root root' : node) :
  alter_at f segs root = Ok root' -> Path.is_prefix segs q = false ->
  stat q root' = stat q root /\ readFile q root' = readFile q root.
Proof.
  revert root root' q. induction segs as [|s rest IH]; intros root root' q;
    [discriminate|].
  simpl alter_at. destruct root as [|m kids]; [discriminate|].
  destruct (find_kid s kids) as [k|] eqn:E.
  - destruct (alter_at f rest k) as [k'|] eqn:Ek; simpl; [|discriminate].
    intros [= <-] Hq. destruct q as [|s' r]; [now split|].
    rewrite !stat_cons, !readFile_cons. simpl in Hq.
    destruct (String.eqb_spec s s') as [<-|Hne].
    + rewrite E, (find_kid_set_same s k k' kids E). now apply IH.
    + rewrite (find_kid_set_other s s' k' kids) by congruence. now split.
  - destruct rest; [|discriminate].
    destruct (f None) as [k'|]; simpl; [|discriminate].
    intros [= <-] Hq. destruct q as [|s' r]; [now split|].
    rewrite !stat_cons, !readFile_cons. simpl in Hq.
    destruct (String.eqb_spec s s') as [<-|Hne]; [discriminate|].
    destruct (find_kid s' kids) as [k0|] eqn:E0.
    + now rewrite (find_kid_app_some s' k0 kids _ E0).
    + assert (find_kid s' (kids ++ [(s, k')]) = None) as ->; [|now split].
      clear -E0 Hne. induction kids as [|[n x] kids IH]; simpl in *.
      * destruct (String.eqb_spec s s'); congruence.
      * destruct (n =? s'); [discriminate | auto].
Qed.




(** [mkdir -p] keeps every file as it is. *)
Lemma mkdir_p_keeps_files (fresh : meta) (segs q : list string)
  (root root' : node) (m : meta) (d : content) :
  mkdir_p fresh segs root = Ok root' ->
  lookup q root = Some (File m d) -> lookup q root' = Some (File m d).
Proof.
  revert root root' q. induction segs as [|s rest IH]; intros root root' q; simpl.
  - destruct root; [discriminate|]. now intros [= <-].
  - destruct root as [|m0 kids]; [discriminate|].
    destruct (find_kid s kids) as [k|] eqn:E.
    + destruct (mkdir_p fresh rest k) as [k'|] eqn:Ek; simpl; [|discriminate].
      intros [= <-]. destruct q as [|s' r]; [discriminate|]. simpl.
      destruct (String.eqb_spec s s') as [<-|Hne].
      * rewrite E, (find_kid_set_same s k k' kids E). now apply IH.
      * now rewrite (find_kid_set_other s s' k' kids) by congruence.
    + intros [= <-]. destruct q as [|s' r]; [discriminate|]. simpl.
      destruct (find_kid s' kids) as [k0|] eqn:E0; [|discriminate].
      now rewrite (find_kid_app_some s' k0 kids _ E0).
Qed.




End TreeFacts.

(** ** More about paths *)

Module PathMore.
Import Str Path PathFacts Handlers.















(** An absolute last argument is all that counts. *)
Lemma resolve_absolute_last (c : string) (l : list string) (p : string) :
  isAbsolute p = true -> resolve c (l ++ [p]) = resolve c [p].
Proof.
  intros Hp. unfold resolve, resolve_segs.
  replace (rev (c :: l ++ [p])) with (p :: (rev l ++ [c]))%list
    by (simpl; rewrite rev_app_distr; reflexivity).
  change (rev [c; p]) with [p; c]. simpl resolve_loop.
  now rewrite (isAbsolute_nonempty p Hp), Hp.
Qed.

End PathMore.

(** ** Helpers for the handlers *)

Module HandlerFacts.
Import Data Fs Handlers FsFacts TreeFacts.



(** What [writeFile] leaves at its path. *)
Lemma writeFile_lookup (fresh : meta) (t : N) (d : content) (segs : list string)
  (root root' : node) :
  writeFile fresh t d segs root = Ok root' ->
  exists m, lookup segs root' = Some (File m d).
Proof.
  intros H. destruct (alter_at_lookup _ _ _ _ H) as [n' [Hf Hl]].
  rewrite Hl. unfold write_w in Hf.
  destruct (lookup segs root) as [[m0 d0|m0 kids]|]; simpl in Hf;
    [| discriminate |]; injection Hf as <-; now eexists.
Qed.




Lemma keeps_dirs_write_w (fresh : meta) (t : N) (d : content) :
  keeps_dirs (write_w fresh t d).
Proof. intros m kids n H. discriminate. Qed.

Lemma keeps_dirs_copy_w (fresh : meta) (t v : N) (d : content) :
  keeps_dirs (copy_w fresh t v d).
Proof. intros m kids n H. discriminate. Qed.

Lemma readFile_lookup (q : list string) (root : node) (d : content) :
  readFile q root = Ok d -> exists m, lookup q root = Some (File m d).
Proof.
  unfold readFile. destruct (lookup q root) as [[m d0|]|]; try discriminate.
  intros [= ->]. now exists m.
Qed.

Lemma lookup_readFile (q : list string) (root : node) (m : meta) (d : content) :
  lookup q root = Some (File m d) -> readFile q root = Ok d.
Proof. unfold readFile. now intros ->. Qed.





End HandlerFacts.

(** ** The handlers *)

Module FileHandlers.
Import Data Async Engine Handlers Props World.


(** In the small world: [a.txt] gets mode 0o600 and keeps its bytes. *)
Example modeHandler_run :
  let r := modeHandler pr0 (mkModeBody "data" "a.txt" 384) tree0 in
  fst r = Resolved (mkResponse 204 None)
  /\ Fs.stat ["srv"; "data"; "a.txt"] (snd r)
     = Ok (mkStats KFile (mkMeta 384 2000 1000 1000))
  /\ Fs.readFile ["srv"; "data"; "a.txt"] (snd r) = Ok (Raw "hello").
Proof. vm_compute. repeat split. Qed.


Example createDirectoryHandler_run :
  fst (createDirectoryHandler pr0 "/x/y" tree0)
  = Resolved (mkResponse 204 (Some "/x/y"))
  /\ Fs.is_dir ["srv"; "x"; "y"] (snd (createDirectoryHandler pr0 "/x/y" tree0))
     = true
  /\ fst (createDirectoryHandler pr0 "data/a.txt/z" tree0) = Rejected ENOTDIR.
Proof. vm_compute. repeat split. Qed.

(** [createFileHandler] then [getFileHandler]: after a PUT that answered,
    a GET of the same path with [accept: application/octet-stream] returns
    the bytes that were put, a GET without it reports a file, the
    directory of the path exists, and every file that is not at or below
    the path reads as before. *)
Theorem put_then_get (pr : proc) (param : string) (body : content)
  (root root' : node) (r : response) :
  createFileHandler pr param body root = (Resolved r, root') ->
  let f := Path.resolve (cwd pr) [cwd pr; param] in
  r = mkResponse 204 None
  /\ getFileHandler pr param (Some "application/octet-stream") root'
     = Resolved (Bytes body)
  /\ (exists s, isFile s = true
                /\ getFileHandler pr param None root'
                   = Resolved (FileInfo (fileInfo pr f s)))
  /\ Fs.is_dir (fs_path pr (Path.dirname f)) root' = true
  /\ (forall q d, Path.is_prefix (fs_path pr f) q = false ->
                  Fs.readFile q root = Ok d -> Fs.readFile q root' = Ok d).
Proof.
  intros H f. unfold createFileHandler in H. fold f in H.
  destruct (Fs.mkdir_p (fresh_dir pr) (fs_path pr (Path.dirname f)) root)
    as [made|e] eqn:Em; [|discriminate].
  destruct (writeFile (fresh_file pr) (now pr) body (fs_path pr f) made)
    as [root2|e] eqn:Ew; [|discriminate].
  injection H as <- <-.
  destruct (HandlerFacts.writeFile_lookup _ _ _ _ _ _ Ew) as [m Hl].
  assert (Hstat : Fs.stat (fs_path pr f) root2 = Ok (mkStats KFile m)).
  { unfold Fs.stat. now rewrite Hl. }
  split; [reflexivity|]. split; [|split; [|split]].
  - unfold getFileHandler. fold f. rewrite Hstat. simpl.
    unfold Fs.readFile. now rewrite Hl.
  - exists (mkStats KFile m). split; [reflexivity|].
    unfold getFileHandler. fold f. now rewrite Hstat.
  - pose proof (FsFacts.mkdir_p_is_dir _ _ _ _ Em) as Hd.
    now apply (FsFacts.alter_at_grows _ _ _ _
                 (HandlerFacts.keeps_dirs_write_w _ _ _) Ew).
  - intros q d Hq Hr.
    destruct (HandlerFacts.readFile_lookup _ _ _ Hr) as [m0 Hl0].
    pose proof (TreeFacts.mkdir_p_keeps_files _ _ q _ _ m0 d Em Hl0) as Hl1.
    destruct (TreeFacts.alter_at_stat_frame _ _ q _ _ Ew Hq) as [_ ->].
    now apply (HandlerFacts.lookup_readFile q made m0 d).
Qed.

Lemma put_then_get_witness :
  getFileHandler pr0 "new/dir/f.bin" (Some "application/octet-stream")
    (snd (createFileHandler pr0 "new/dir/f.bin" (Raw "xyz") tree0))
  = Resolved (Bytes (Raw "xyz")).
Proof.
  destruct (createFileHandler pr0 "new/dir/f.bin" (Raw "xyz") tree0)
    as [o root'] eqn:E.
  assert (Ho : o = Resolved (mkResponse 204 None)).
  { apply (f_equal fst) in E. vm_compute in E. now rewrite <- E. }
  subst o. simpl.
  apply (put_then_get pr0 "new/dir/f.bin" (Raw "xyz") tree0 root'
           (mkResponse 204 None) E).
Defined.




Example delete_run :
  fst (deleteFileHandler pr0 "data/a.txt" tree0) = Resolved (mkResponse 204 None)
  /\ fst (deleteFileHandler pr0 "data" tree0) = Rejected EISDIR
  /\ fst (deleteFileHandler pr0 "data/nope" tree0) = Rejected ENOENT.
Proof. vm_compute. repeat split. Qed.



(** [renameHandler], whatever [fs.rename] does: an absolute [file] and an
    absolute [target] are handed over as they are; [dir] and the working
    directory play no part in where they point. *)
Theorem renameHandler_absolute (pr : proc)
  (rename : list string -> list string -> node -> result node)
  (dir file target : string) (root : node) :
  Path.isAbsolute (cwd pr) = true ->
  Path.isAbsolute file = true -> Path.isAbsolute target = true ->
  renameHandler pr rename (mkPathBody dir file target) root
  = match rename (fs_path pr file) (fs_path pr target) root with
    | Ok root' =>
        (Resolved
           (mkResponse 204
              (Some (Str.remove_first (cwd pr)
                       (Path.resolve (cwd pr) [target])))),
         root')
    | Err e => (Rejected e, root)
    end.
Proof.
  intros Hc Hf Ht. unfold renameHandler. simpl p_dir. simpl p_file.
  simpl p_target.
  assert (E1 : Path.resolve (cwd pr) [cwd pr; "./" ++ or_root dir; file]
               = Path.resolve (cwd pr) [file])
    by exact (PathMore.resolve_absolute_last (cwd pr)
                [cwd pr; "./" ++ or_root dir] file Hf).
  assert (E2 : Path.resolve (cwd pr) [cwd pr; "./" ++ or_root dir; target]
               = Path.resolve (cwd pr) [target])
    by exact (PathMore.resolve_absolute_last (cwd pr)
                [cwd pr; "./" ++ or_root dir] target Ht).
  rewrite E1, E2. unfold fs_path. now rewrite !PathFacts.resolve_segs_resolve by assumption.
Qed.

Lemma renameHandler_absolute_witness :
  renameHandler pr0 (fun _ _ root => Ok root)
    (mkPathBody "data" "/etc/passwd" "/etc/shadow") tree0
  = (Resolved (mkResponse 204 (Some "/etc/shadow")), tree0).
Proof.
  rewrite (renameHandler_absolute pr0 (fun _ _ root => Ok root)
             "data" "/etc/passwd" "/etc/shadow" tree0);
    reflexivity.
Defined.



End FileHandlers.

(** ** More about the archive functions *)

Module EngineMore.
Import Data Async Engine Props Str Path PathFacts.

Lemma mapM_in {A B : Type} (g : A -> result B) (xs : list A) (ys : list B) (y : B) :
  mapM g xs = Ok ys -> In y ys -> exists x, In x xs /\ g x = Ok y.
Proof.
  revert ys. induction xs as [|x xs IH]; intros ys; simpl.
  - intros [= <-] [].
  - destruct (g x) as [y0|] eqn:Ex; simpl; [|discriminate].
    destruct (mapM g xs) as [ys0|] eqn:Em; simpl; [|discriminate].
    intros [= <-] [<-|Hin].
    + exists x. split; [now left | assumption].
    + destruct (IH ys0 eq_refl Hin) as [x' [H1 H2]].
      exists x'. split; [now right | assumption].
Qed.








End EngineMore.

Module Archives.
Import Data Async Engine Props World.


Lemma zip_entries_names (pr : proc) (f : string) (files : list (string * stats))
  (root : node) (es : list (header * option content))
  (e : header * option content) :
  zip_entries pr f files root = Ok es -> In e es ->
  exists x, In x files /\ h_name (fst e) = entry_name pr f (fst x).
Proof.
  unfold zip_entries.
  destruct (mapM _ (filter is_file_entry files)) as [read|] eqn:Em; simpl;
    [|discriminate].
  intros [= <-] Hin. apply in_app_or in Hin as [Hin|Hin].
  - apply in_map_iff in Hin as [x [<- Hx]]. apply filter_In in Hx as [Hx _].
    now exists x.
  - destruct (EngineMore.mapM_in _ _ _ _ Em Hin) as [x [Hx Hg]].
    apply filter_In in Hx as [Hx _]. exists x. split; [assumption|].
    destruct (Fs.readFile (fs_path pr (fst x)) root); simpl in Hg;
      [|discriminate].
    now injection Hg as <-.
Qed.






(** A root that is not there: [tar] and [zip] reject with the error of
    the stat, [ENOENT] or [ENOTDIR], and so does [compressHandler] for
    both formats; no stream is started and nothing changes. *)
Theorem missing_root_rejected (pr : proc) (f : string) (st : state) :
  Fs.lookup (fs_path pr f) (fs st) = None ->
  let e := Fs.missing (fs_path pr f) (fs st) in
  (e = ENOENT \/ e = ENOTDIR)
  /\ tar pr f st = (Rejected e, st)
  /\ zip pr f st = (Rejected e, st)
  /\ forall dir target format,
       Path.resolve (cwd pr) [cwd pr; "./" ++ or_root dir; "./" ++ target] = f ->
       format = "tar.gz" \/ format = "zip" ->
       compressHandler pr (mkCompress dir target format) st = (Rejected e, st).
Proof.
  intros Hl e.
  assert (Hg : getFiles pr f (fs st) = Err e).
  { unfold getFiles, Fs.stat. now rewrite Hl. }
  assert (Ht : tar pr f st = (Rejected e, st)) by (unfold tar; now rewrite Hg).
  assert (Hz : zip pr f st = (Rejected e, st)) by (unfold zip; now rewrite Hg).
  split; [|split; [assumption | split; [assumption|]]].
  - unfold e. clear -Hl. generalize (fs_path pr f) as segs. intros segs.
    generalize (fs st) as root. induction segs as [|s rest IH]; intros root.
    + now left.
    + simpl. destruct root as [|m kids]; [now right|].
      destruct (Fs.find_kid s kids); [apply IH | now left].
  - intros dir target format Hp [->| ->]; unfold compressHandler;
      cbn [c_dir c_target c_format]; rewrite Hp; simpl;
      [now rewrite Ht | now rewrite Hz].
Qed.

Lemma missing_root_witness :
  tar pr0 "/srv/nope" st0 = (Rejected ENOENT, st0)
  /\ compressHandler pr0 (mkCompress "" "data/a.txt/x" "zip") st0
     = (Rejected ENOTDIR, st0).
Proof.
  split.
  - now apply (missing_root_rejected pr0 "/srv/nope" st0).
  - destruct (missing_root_rejected pr0 "/srv/data/a.txt/x" st0 eq_refl)
      as [_ [_ [_ H]]].
    apply (H "" "data/a.txt/x" "zip"); [reflexivity | now right].
Defined.



End Archives.

(** ** What a listing tells a client *)

Module Infos.
Import Data Async Engine Handlers Props World.



End Infos.
